(** * LaTeX_MCP: the analysis tools of [latex_server.py]

    A shallow embedding of the four analysis tools ([read_text],
    [check_term_consistency], [check_formulas], [analyze_citations]) and of
    the two pass-through helpers, together with the part of Python's [re]
    module that their patterns use.

    A Python [str] is a [string]; a character is a code point below 256. *)

From Stdlib Require Import Ascii String DecimalString.
From stdpp Require Import gmap strings list fin_maps.

(** ** Python string methods *)

Module Str.

(** [all p s]: every character of [s] satisfies [p]. *)
Fixpoint all (p : ascii → bool) (s : string) : bool :=
  match s with
  | "" => true
  | String a s' => p a && all p s'
  end.

(** [c in s] for a single character [c]. *)
Fixpoint mem (c : ascii) (s : string) : bool :=
  match s with
  | "" => false
  | String a s' => Ascii.eqb a c || mem c s'
  end.

(** [s.count(c)] for a single character [c]. *)
Fixpoint count (c : ascii) (s : string) : nat :=
  match s with
  | "" => 0
  | String a s' => (if Ascii.eqb a c then 1 else 0) + count c s'
  end.

(** [strip_prefix l s] is [Some s'] when [s = l + s']. *)
Fixpoint strip_prefix (l s : string) : option string :=
  match l with
  | "" => Some s
  | String a l' =>
      match s with
      | String b s' => if Ascii.eqb a b then strip_prefix l' s' else None
      | "" => None
      end
  end.

(** [l in s] for a string [l]. *)
Fixpoint occurs (l s : string) : bool :=
  match strip_prefix l s with
  | Some _ => true
  | None => match s with String _ s' => occurs l s' | "" => false end
  end.

(** [str.lower] on code points below 256: A-Z and the Latin-1 capitals
    U+00C0..U+00DE (without the multiplication sign U+00D7) move up by 32. *)
Definition lower_char (c : ascii) : ascii :=
  let n := nat_of_ascii c in
  if (65 <=? n) && (n <=? 90) || (192 <=? n) && (n <=? 222) && negb (n =? 215)
  then ascii_of_nat (n + 32) else c.

Fixpoint lower (s : string) : string :=
  match s with
  | "" => ""
  | String a s' => String (lower_char a) (lower s')
  end.

(** [str.isspace] on one code point below 256. *)
Definition isspace (c : ascii) : bool :=
  let n := nat_of_ascii c in
  (9 <=? n) && (n <=? 13) || (28 <=? n) && (n <=? 32) || (n =? 133) || (n =? 160).

Fixpoint lstrip (s : string) : string :=
  match s with
  | "" => ""
  | String a s' => if isspace a then lstrip s' else s
  end.

Fixpoint rstrip (s : string) : string :=
  match s with
  | "" => ""
  | String a s' =>
      match rstrip s' with
      | "" => if isspace a then "" else String a ""
      | r => String a r
      end
  end.

(** [s.strip()] *)
Definition strip (s : string) : string := rstrip (lstrip s).

(** [s.split(sep)] for a single character [sep]: the first piece and the
    pieces after it. *)
Fixpoint split_pieces (sep : ascii) (s : string) : string * list string :=
  match s with
  | "" => ("", [])
  | String a s' =>
      let pieces := split_pieces sep s' in
      if Ascii.eqb a sep then ("", pieces.1 :: pieces.2)
      else (String a pieces.1, pieces.2)
  end.

Definition split (sep : ascii) (s : string) : list string :=
  let pieces := split_pieces sep s in pieces.1 :: pieces.2.

(** [str(n)] for a natural number. *)
Definition of_nat (n : nat) : string := NilEmpty.string_of_uint (Nat.to_uint n).

End Str.

(** ** The fragment of [re] used by the tools

    A backtracking matcher in list-of-successes style: [run r pos s] lists
    every way [r] can match a prefix of [s] (the text from offset [pos] on),
    in the order in which the backtracking search of [re] tries them. The
    head of the list is the match that [re] reports. *)

Module Re.

Inductive regex : Type :=
| Lit (l : string)                 (* a literal, escapes resolved *)
| Class (p : ascii → bool)         (* one character of a class *)
| Star (p : ascii → bool)          (* [p*], greedy *)
| StarLazy (p : ascii → bool)      (* [p*?] *)
| Seq (r1 r2 : regex)
| Alt (r1 r2 : regex)              (* [r1|r2] *)
| Group (r : regex)                (* [(r)] *)
| Ahead (r : regex)                (* [(?=r)] *)
| Dollar.                          (* [$] without MULTILINE *)

(** [p+] *)
Definition Plus (p : ascii → bool) : regex := Seq (Class p) (Star p).

(** [.] under DOTALL, and [[^c]]. *)
Definition dot_all : ascii → bool := λ _, true.
Definition other_than (c : ascii) : ascii → bool := λ a, negb (Ascii.eqb a c).

(** A group is the offset at which it starts and the text it holds. *)
Definition span : Type := nat * string.

(** One way of matching: the groups, the text consumed, the text left. *)
Record found := Found { groups : list span; eaten : string; rest : string }.

Definition more (a : ascii) (x : string * string) : string * string :=
  (String a x.1, x.2).

(** The splits of [s] for [p*], longest first. *)
Fixpoint greedy (p : ascii → bool) (s : string) : list (string * string) :=
  match s with
  | String a s' => if p a then (more a <$> greedy p s') ++ [("", s)] else [("", s)]
  | "" => [("", "")]
  end.

(** The splits of [s] for [p*?], shortest first. *)
Fixpoint reluctant (p : ascii → bool) (s : string) : list (string * string) :=
  match s with
  | String a s' => ("", s) :: (if p a then more a <$> reluctant p s' else [])
  | "" => [("", "")]
  end.

Definition split_found (x : string * string) : found := Found [] x.1 x.2.

Definition at_end (s : string) : bool :=
  match s with
  | "" => true
  | String a "" => Ascii.eqb a "010"
  | _ => false
  end.

(** The part of [s] in front of the place where [$] holds: [s] without
    the newline that ends it, if one does. *)
Fixpoint before_end (s : string) : string :=
  match s with
  | "" => ""
  | String a s' => if at_end s then "" else String a (before_end s')
  end.

Fixpoint run (r : regex) (pos : nat) (s : string) : list found :=
  match r with
  | Lit l =>
      match Str.strip_prefix l s with
      | Some s' => [Found [] l s']
      | None => []
      end
  | Class p =>
      match s with
      | String a s' => if p a then [Found [] (String a "") s'] else []
      | "" => []
      end
  | Star p => split_found <$> greedy p s
  | StarLazy p => split_found <$> reluctant p s
  | Seq r1 r2 =>
      x ← run r1 pos s;
      (λ y, Found (groups x ++ groups y) (eaten x +:+ eaten y) (rest y))
        <$> run r2 (pos + String.length (eaten x)) (rest x)
  | Alt r1 r2 => run r1 pos s ++ run r2 pos s
  | Group r =>
      (λ x, Found ((pos, eaten x) :: groups x) (eaten x) (rest x)) <$> run r pos s
  | Ahead r =>
      match run r pos s with
      | x :: _ => [Found (groups x) "" s]
      | [] => []
      end
  | Dollar => if at_end s then [Found [] "" s] else []
  end.

(** The scan of [finditer]/[findall]: try every offset from left to right;
    after a match that consumed [n] characters the next [n - 1] offsets are
    skipped. [skip] counts the offsets still to skip. (No pattern of this
    program matches the empty string, so the rules of [re] for empty
    matches play no role.) *)
Fixpoint scan (r : regex) (pos : nat) (s : string) (skip : nat) : list (list span) :=
  match skip with
  | S k =>
      match s with
      | String _ s' => scan r (S pos) s' k
      | "" => []
      end
  | 0 =>
      match run r pos s with
      | x :: _ =>
          groups x ::
            match s with
            | String _ s' => scan r (S pos) s' (String.length (eaten x) - 1)
            | "" => []
            end
      | [] =>
          match s with
          | String _ s' => scan r (S pos) s' 0
          | "" => []
          end
      end
  end.

(** The groups of every match, in text order. *)
Definition finditer (r : regex) (text : string) : list (list span) :=
  scan r 0 text 0.

(** [m.group(n)], the empty string for a group that took no part. *)
Definition group (n : nat) (g : list span) : string :=
  from_option snd "" (g !! (n - 1)).

(** [re.findall] for a pattern with one group, and with two. *)
Definition findall (r : regex) (text : string) : list string :=
  group 1 <$> finditer r text.

Definition findall2 (r : regex) (text : string) : list (string * string) :=
  (λ g, (group 1 g, group 2 g)) <$> finditer r text.

(** The spans of group 1 over all matches. *)
Definition captured (r : regex) (text : string) : list span :=
  omap head (finditer r text).

End Re.

Import Re.
Infix "⋄" := Seq (at level 55, right associativity).

(** ** The patterns of the source

    Each pattern is quoted from the source with blanks added between its
    parts. *)

(* \\section\{ ( [^}]* ) \} ( .*? ) (?= \\section\{ | $ )     with re.DOTALL *)
Definition section_pattern : regex :=
  Lit "\section{" ⋄ Group (Star (other_than "}")) ⋄ Lit "}" ⋄
  Group (StarLazy dot_all) ⋄ Ahead (Alt (Lit "\section{") Dollar).

(* \\subsection\{ ( [^}]* ) \} ( .*? ) (?= \\subsection\{ | \\section\{ | $ )
   with re.DOTALL *)
Definition subsection_pattern : regex :=
  Lit "\subsection{" ⋄ Group (Star (other_than "}")) ⋄ Lit "}" ⋄
  Group (StarLazy dot_all) ⋄
  Ahead (Alt (Lit "\subsection{") (Alt (Lit "\section{") Dollar)).

(* \\name\{ ( [^}]* ) \}     for name in textit, textbf, term, cite, bibitem *)
Definition braced (name : string) : regex :=
  Lit ("\" +:+ name +:+ "{") ⋄ Group (Star (other_than "}")) ⋄ Lit "}".

(* \$ ( [^$]+ ) \$     and     \$\$ ( [^$]+ ) \$\$ *)
Definition inline_pattern : regex :=
  Lit "$" ⋄ Group (Plus (other_than "$")) ⋄ Lit "$".
Definition display_pattern : regex :=
  Lit "$$" ⋄ Group (Plus (other_than "$")) ⋄ Lit "$$".

(* \\begin\{env\} ( .*? ) \\end\{env\}     with re.DOTALL, for env in
   equation, align *)
Definition environment (env : string) : regex :=
  Lit ("\begin{" +:+ env +:+ "}") ⋄ Group (StarLazy dot_all) ⋄
  Lit ("\end{" +:+ env +:+ "}").

(** ** read_text *)

Record Subsection := { sub_title : string; sub_content : string }.

Record Section :=
  { title : string; content : string; subsections : list Subsection }.

Record Structure := { sections : list Section; structure_content : string }.

Definition read_subsection (m : string * string) : Subsection :=
  {| sub_title := m.1; sub_content := m.2 |}.

Definition read_section (m : string * string) : Section :=
  {| title := m.1;
     content := m.2;
     subsections := read_subsection <$> findall2 subsection_pattern m.2 |}.

Definition read_text (text : string) : Structure :=
  {| sections := read_section <$> findall2 section_pattern text;
     structure_content := text |}.

(** ** rewrite_paragraph and the optimize_equation prompt

    What a tool or prompt function hands back: [None], or a dictionary of
    strings. *)

Inductive pyobj : Type :=
| PyNone
| PyDict (items : list (string * string)).

(** The instruction, as the bytes of its UTF-8 encoding. *)
Definition rewrite_instruction : string :=
  "请根据上下文对这段LaTeX文本进行润色和改写，保持专业的学术风格和术语一致性".

(** [context] and [style] have defaults in the source; a call leaving them
    out passes the empty string and [academic]. *)
Definition rewrite_paragraph (paragraph context style : string) : pyobj :=
  PyDict [("paragraph", paragraph); ("context", context); ("style", style);
          ("instruction", rewrite_instruction)].

(** [optimize_equation] has no parameter; its body is [pass]. *)
Definition optimize_equation : pyobj := PyNone.

(** ** check_term_consistency *)

Record Inconsistency :=
  { original : string; variant : string; suggestion : string }.

(** The two locals of the loop: [found_terms] and [inconsistencies]. *)
Record TermState :=
  { found_terms : gmap string string; inconsistencies : list Inconsistency }.

Definition term_patterns : list regex :=
  [braced "textit"; braced "textbf"; braced "term"; braced "cite"].

(** The body of the inner loop, for one [term]. *)
Definition see_term (st : TermState) (term : string) : TermState :=
  let term_lower := Str.lower term in
  match found_terms st !! term_lower with
  | Some canon =>
      if bool_decide (canon ≠ term)
         && bool_decide (term ∉ (map_img (found_terms st) : gset string))
      then {| found_terms := found_terms st;
              inconsistencies :=
                inconsistencies st ++
                [ {| original := canon; variant := term;
                     suggestion := "Consider using '" +:+ canon +:+ "' consistently" |} ] |}
      else st
  | None =>
      {| found_terms := <[term_lower := term]> (found_terms st);
         inconsistencies := inconsistencies st |}
  end.

Definition see_pattern (text : string) (st : TermState) (pattern : regex) : TermState :=
  foldl see_term st (findall pattern text).

(** [found_terms = {}] and [inconsistencies = []] *)
Definition start : TermState := {| found_terms := ∅; inconsistencies := [] |}.

Definition term_loop (text : string) : TermState :=
  foldl (see_pattern text) start term_patterns.

Record TermReport :=
  { terms : gmap string string; report_inconsistencies : list Inconsistency }.

(** The global [term_cache] is threaded through: the function takes its
    current value and returns the new one next to the report. *)
Definition check_term_consistency (text : string) (update_cache : bool)
    (term_cache : gmap string string) : TermReport * gmap string string :=
  let st := term_loop text in
  ({| terms := found_terms st; report_inconsistencies := inconsistencies st |},
   if update_cache then found_terms st else term_cache).

(** ** check_formulas *)

Record FormulaReport :=
  { formulas : list (string * list string);
    errors : list string;
    suggestions : list string }.

Definition mismatched (formula_type : string) (idx : nat) : string :=
  formula_type +:+ " formula #" +:+ Str.of_nat (idx + 1) +:+
  " has mismatched parentheses".

Definition unescaped (formula_type : string) (idx : nat) : string :=
  formula_type +:+ " formula #" +:+ Str.of_nat (idx + 1) +:+
  " may have unescaped special characters".

(** The two checks of the loop body, for the formula at [idx]. *)
Definition formula_errors (formula_type : string) (idx : nat) (formula : string)
    : list string :=
  (if bool_decide (Str.count "(" formula ≠ Str.count ")" formula)
   then [mismatched formula_type idx] else []) ++
  (if negb (Str.mem "\" formula)
      && existsb (λ c, Str.mem c formula) ["_"; "^"; "&"; "%"]%char
   then [unescaped formula_type idx] else []).

Definition category_errors (entry : string * list string) : list string :=
  mjoin (imap (formula_errors entry.1) entry.2).

Definition check_formulas (text : string) : FormulaReport :=
  let inline_formulas := findall inline_pattern text in
  let display_formulas := findall display_pattern text in
  let equation_formulas := findall (environment "equation") text in
  let align_formulas := findall (environment "align") text in
  let all_formulas :=
    [("inline", inline_formulas); ("display", display_formulas);
     ("equation", equation_formulas); ("align", align_formulas)] in
  {| formulas := all_formulas;
     errors := all_formulas ≫= category_errors;
     suggestions :=
       if bool_decide (0 < length align_formulas)
       then ["Consider using \label{} for important equations to reference them later"]
       else [] |}.

(** The spans behind the four lists of [check_formulas]. *)
Definition formula_spans (text : string) : list (string * list span) :=
  [("inline", captured inline_pattern text);
   ("display", captured display_pattern text);
   ("equation", captured (environment "equation") text);
   ("align", captured (environment "align") text)].

(** Two spans overlap when they share a character of the text; the four
    categories are disjoint on [text] when no span of one category overlaps a
    span of another. *)
Definition overlap (x y : span) : Prop :=
  x.1 < y.1 + String.length y.2 ∧ y.1 < x.1 + String.length x.2.

Definition disjoint_categories (text : string) : Prop :=
  ∀ i j ci cj si sj x y,
    i ≠ j →
    formula_spans text !! i = Some (ci, si) →
    formula_spans text !! j = Some (cj, sj) →
    x ∈ si → y ∈ sj → ¬ overlap x y.

(** ** analyze_citations *)

Record CitationReport :=
  { citation_count : nat;
    citations : list string;
    bibliography_count : nat;
    unused_references : list string;
    missing_references : list string }.

(** The flattened, stripped citation keys, in text order. *)
Definition citation_keys (text : string) : list string :=
  Str.strip <$> mjoin (Str.split "," <$> findall (braced "cite") text).

Definition bibliography_keys (text : string) : list string :=
  findall (braced "bibitem") text.

(** [set(citations)] is a [gset]; [list(set(citations))] lists it in some
    order, here the one of [elements]. *)
Definition analyze_citations (text : string) : CitationReport :=
  let citations := citation_keys text in
  let bibliography := bibliography_keys text in
  {| citation_count := size (list_to_set citations : gset string);
     citations := elements (list_to_set citations : gset string);
     bibliography_count := length bibliography;
     unused_references := filter (λ ref, ref ∉ citations) bibliography;
     missing_references := filter (λ cite, cite ∉ bibliography) citations |}.

(** The cross-reference report read as sets: both difference lists free of
    repetitions and equal, as sets, to the two set differences, and both
    counts the sizes of the sets of keys. *)
Definition cross_reference_as_sets (text : string) : Prop :=
  let report := analyze_citations text in
  let CitationSet : gset string := list_to_set (citation_keys text) in
  let BibliographySet : gset string := list_to_set (bibliography_keys text) in
  NoDup (unused_references report)
  ∧ list_to_set (unused_references report) = BibliographySet ∖ CitationSet
  ∧ NoDup (missing_references report)
  ∧ list_to_set (missing_references report) = CitationSet ∖ BibliographySet
  ∧ citation_count report = size CitationSet
  ∧ bibliography_count report = size BibliographySet.

(** What it is for a helper to hand back its inputs together with an
    instruction: a dictionary that holds each input among its values and
    the instruction under the key [instruction]. *)
Definition passes_through (inputs : list string) (instruction : string)
    (out : pyobj) : Prop :=
  ∃ items, out = PyDict items
           ∧ (∀ i, i ∈ inputs → i ∈ items.*2)
           ∧ ("instruction", instruction) ∈ items.

(** The terms of a text in the order in which the loops of
    [check_term_consistency] visit them. *)
Definition all_terms (text : string) : list string :=
  term_patterns ≫= (λ pattern, findall pattern text).

(** What is known of the state of the loop once the terms [seen] have gone
    through it: every recorded spelling is one of them and belongs to its
    key, and every inconsistency pairs two different spellings of one key,
    both among them. *)
Definition consistent_with (seen : list string) (st : TermState) : Prop :=
  (∀ key v, found_terms st !! key = Some v → v ∈ seen ∧ Str.lower v = key)
  ∧ (∀ inc, inc ∈ inconsistencies st →
       variant inc ∈ seen ∧ original inc ∈ seen
       ∧ Str.lower (original inc) = Str.lower (variant inc)
       ∧ original inc ≠ variant inc).

(** ** Devices for statements about whole texts *)

(** A pattern without a group in it. *)
Fixpoint groupless (r : regex) : bool :=
  match r with
  | Lit _ | Class _ | Star _ | StarLazy _ | Dollar => true
  | Seq r1 r2 | Alt r1 r2 => groupless r1 && groupless r2
  | Group _ => false
  | Ahead r => groupless r
  end.

(** Pieces of a text, each behind the gap that separates it from the piece
    before it. *)
Fixpoint interleave (pieces : list (string * string)) : string :=
  match pieces with
  | [] => ""
  | (gap, piece) :: pieces => gap +:+ piece +:+ interleave pieces
  end.

(** The text a section or subsection entry was read from: its heading and
    its content. *)
Definition section_source (sec : Section) : string :=
  "\section{" +:+ title sec +:+ "}" +:+ content sec.

Definition subsection_source (sub : Subsection) : string :=
  "\subsection{" +:+ sub_title sub +:+ "}" +:+ sub_content sub.

(** The entry the loop of [check_term_consistency] is to add for [term]
    when [table] holds another spelling under the key of [term]. *)
Definition expected_inconsistency (table : gmap string string) (term : string)
    : option Inconsistency :=
  canon ← table !! Str.lower term;
  if decide (canon ≠ term)
  then Some {| original := canon; variant := term;
               suggestion := "Consider using '" +:+ canon +:+ "' consistently" |}
  else None.

(** Every spelling of the table sits under its own key. *)
Definition keyed (st : TermState) : Prop :=
  ∀ key v, found_terms st !! key = Some v → Str.lower v = key.

(** [sep.join(l)] *)
Fixpoint join (sep : string) (l : list string) : string :=
  match l with
  | [] => ""
  | [x] => x
  | x :: l' => x +:+ sep +:+ join sep l'
  end.

(** The strings of [l] one after the other. *)
Fixpoint concat_all (l : list string) : string :=
  match l with
  | [] => ""
  | x :: l' => x +:+ concat_all l'
  end.

(** Source text: a section heading with the body behind it; a citation
    command for a list of keys with the text behind it; a bibliography entry
    for a key with the text behind it. *)
Definition section_entry (entry : string * string) : string :=
  "\section{" +:+ entry.1 +:+ "}" +:+ entry.2.

Definition cite_entry (entry : list string * string) : string :=
  "\cite{" +:+ join ", " entry.1 +:+ "}" +:+ entry.2.

Definition bibitem_entry (entry : string * string) : string :=
  "\bibitem{" +:+ entry.1 +:+ "}" +:+ entry.2.

(** A key that can be written in a citation command and read back: no
    comma, no closing brace, no white space at either end. *)
Definition clean_key (key : string) : Prop :=
  Str.mem "," key = false ∧ Str.mem "}" key = false ∧ Str.strip key = key.

(** * Strings *)

#[local] Arguments String.append !_ _ / : simpl nomatch.

Section strings.
Implicit Types (s t u v w l r : string) (a b c : ascii) (p : ascii → bool).

Lemma str_app_nil_r s : s +:+ "" = s.
Proof. induction s; simpl; congruence. Qed.

Lemma str_app_assoc s t u : (s +:+ t) +:+ u = s +:+ t +:+ u.
Proof. induction s; simpl; congruence. Qed.

Lemma str_length_app s t :
  String.length (s +:+ t) = String.length s + String.length t.
Proof. induction s; simpl; congruence. Qed.

Lemma str_length_zero s : String.length s = 0 → s = "".
Proof. by destruct s. Qed.

(** Two ways of cutting one string share a middle part. *)
Lemma str_app_eq_inv s1 s2 t1 t2 :
  s1 +:+ s2 = t1 +:+ t2 →
  (∃ k, s1 = t1 +:+ k ∧ t2 = k +:+ s2) ∨ (∃ k, t1 = s1 +:+ k ∧ s2 = k +:+ t2).
Proof.
  revert t1. induction s1 as [|a s1 IH]; intros t1 E; simpl in E.
  - right. exists t1. by rewrite E.
  - destruct t1 as [|b t1]; simpl in E.
    + left. exists (String a s1). by rewrite <- E.
    + injection E as -> E. destruct (IH _ E) as [[k [-> ->]]|[k [-> ->]]].
      * left. by exists k.
      * right. by exists k.
Qed.

Lemma strip_prefix_Some l s r : Str.strip_prefix l s = Some r ↔ s = l +:+ r.
Proof.
  revert s. induction l as [|a l IH]; intros s; simpl.
  - split; congruence.
  - destruct s as [|b s]; [split; discriminate|].
    destruct (Ascii.eqb_spec a b) as [->|Hab].
    + rewrite IH. split; congruence.
    + split; [discriminate|]. intros [= ? ?]. congruence.
Qed.

Lemma strip_prefix_app l s : Str.strip_prefix l (l +:+ s) = Some s.
Proof. by apply strip_prefix_Some. Qed.

Lemma strip_prefix_None l s :
  Str.strip_prefix l s = None ↔ ∀ r, s ≠ l +:+ r.
Proof.
  split.
  - intros E r ->. by rewrite strip_prefix_app in E.
  - intros H. destruct (Str.strip_prefix l s) as [r|] eqn:E; [|done].
    apply strip_prefix_Some in E. by destruct (H r).
Qed.

Lemma all_app p s t : Str.all p (s +:+ t) = Str.all p s && Str.all p t.
Proof. induction s as [|a s IH]; simpl; [done|]. by rewrite IH, andb_assoc. Qed.

Lemma mem_app c s t : Str.mem c (s +:+ t) = Str.mem c s || Str.mem c t.
Proof. induction s as [|a s IH]; simpl; [done|]. by rewrite IH, orb_assoc. Qed.

Lemma mem_all c s : Str.mem c s = negb (Str.all (other_than c) s).
Proof.
  induction s as [|a s IH]; simpl; [done|].
  rewrite IH. unfold other_than. by destruct (Ascii.eqb a c), (Str.all _ s).
Qed.

Lemma occurs_false_here l s : Str.occurs l s = false → Str.strip_prefix l s = None.
Proof. destruct s; simpl; by destruct (Str.strip_prefix l _). Qed.

Lemma occurs_false_app l u v :
  Str.occurs l (u +:+ v) = false → Str.occurs l u = false ∧ Str.occurs l v = false.
Proof.
  induction u as [|a u IH]; simpl.
  - intros H. split; [|done].
    destruct l; [by destruct v|done].
  - destruct (Str.strip_prefix l (String a (u +:+ v))) as [r|] eqn:E; [done|].
    intros H. destruct (IH H) as [Hu Hv]. split; [|done].
    destruct (Str.strip_prefix l (String a u)) as [r|] eqn:E'; [|done].
    apply strip_prefix_Some in E'. rewrite strip_prefix_None in E.
    destruct (E (r +:+ v)). change (String a u +:+ v = l +:+ r +:+ v).
    by rewrite E', str_app_assoc.
Qed.

(** A literal whose first character does not come back later in it cannot
    start inside [w] and run over the end of [w] into a copy of itself. *)
Lemma no_straddle c l w s :
  Str.mem c l = false → Str.occurs (String c l) w = false → w ≠ "" →
  Str.strip_prefix (String c l) (w +:+ String c l +:+ s) = None.
Proof.
  intros Hc Hw Hne. apply occurs_false_here in Hw.
  apply strip_prefix_None. intros r E.
  rewrite strip_prefix_None in Hw.
  apply str_app_eq_inv in E as [[k [-> _]]|[k [E1 E2]]]; [by destruct (Hw k)|].
  destruct w as [|b w]; [done|]. simpl in E1. injection E1 as <- ->.
  destruct k as [|d k].
  - destruct (Hw ""). by rewrite !str_app_nil_r.
  - simpl in E2. injection E2 as <- _.
    rewrite mem_app in Hc. simpl in Hc. rewrite Ascii.eqb_refl in Hc.
    by rewrite orb_true_r in Hc.
Qed.

End strings.

(** * The matcher *)

Section matcher.
Implicit Types (s t u v w l : string) (a b c : ascii) (p : ascii → bool).
Implicit Types (r : regex) (x y : found) (pos skip : nat).

Lemma greedy_sound p s (z : string * string) : z ∈ greedy p s → s = z.1 +:+ z.2.
Proof.
  revert z. induction s as [|a s IH]; intros z; simpl.
  - by intros ->%list_elem_of_singleton.
  - destruct (p a).
    + rewrite elem_of_app, list_elem_of_fmap, list_elem_of_singleton.
      intros [[z' [-> Hz']]| ->]; simpl; [|done]. by rewrite <- (IH z').
    + by intros ->%list_elem_of_singleton.
Qed.

Lemma reluctant_sound p s (z : string * string) :
  z ∈ reluctant p s → s = z.1 +:+ z.2.
Proof.
  revert z. induction s as [|a s IH]; intros z; simpl.
  - by intros ->%list_elem_of_singleton.
  - rewrite elem_of_cons. intros [->|Hz]; [done|].
    destruct (p a); [|by apply elem_of_nil in Hz].
    apply list_elem_of_fmap in Hz as [z' [-> Hz']]. simpl. by rewrite <- (IH z').
Qed.

(** Whatever way [r] matches, the text is what was consumed followed by
    what is left. *)
Lemma run_sound r pos s x : x ∈ run r pos s → s = eaten x +:+ rest x.
Proof.
  revert pos s x. induction r as [l|p|p|p|r1 IH1 r2 IH2|r1 IH1 r2 IH2|r IH|r IH|];
    intros pos s x; simpl.
  - destruct (Str.strip_prefix l s) as [s'|] eqn:E; [|by intros ?%elem_of_nil].
    intros ->%list_elem_of_singleton. by apply strip_prefix_Some.
  - destruct s as [|a s]; [by intros ?%elem_of_nil|].
    destruct (p a); [|by intros ?%elem_of_nil].
    by intros ->%list_elem_of_singleton.
  - intros [z [-> Hz]]%list_elem_of_fmap. by apply greedy_sound in Hz.
  - intros [z [-> Hz]]%list_elem_of_fmap. by apply reluctant_sound in Hz.
  - intros [x1 [[y [-> Hy]]%list_elem_of_fmap Hx1]]%list_elem_of_bind. simpl.
    rewrite str_app_assoc, <- (IH2 _ _ _ Hy). by apply IH1 in Hx1.
  - rewrite elem_of_app. intros [H|H]; eauto.
  - intros [y [-> Hy]]%list_elem_of_fmap. simpl. eauto.
  - destruct (run r pos s); [by intros ?%elem_of_nil|].
    by intros ->%list_elem_of_singleton.
  - destruct (at_end s); [|by intros ?%elem_of_nil].
    by intros ->%list_elem_of_singleton.
Qed.

(** ** The scan, one step at a time *)

Lemma scan_skip r pos u s :
  scan r pos (u +:+ s) (String.length u) = scan r (pos + String.length u) s 0.
Proof.
  revert pos. induction u as [|a u IH]; intros pos; simpl.
  - by rewrite Nat.add_0_r.
  - rewrite IH. f_equal. lia.
Qed.

Lemma scan_miss r pos a s :
  run r pos (String a s) = [] → scan r pos (String a s) 0 = scan r (S pos) s 0.
Proof. intros E. simpl scan. by rewrite E. Qed.

Lemma scan_hit r pos s x xs :
  run r pos s = x :: xs → eaten x ≠ "" →
  scan r pos s 0 = groups x :: scan r (pos + String.length (eaten x)) (rest x) 0.
Proof.
  intros E Hne. assert (Hs : s = eaten x +:+ rest x).
  { apply (run_sound r pos). rewrite E. by left. }
  destruct (eaten x) as [|a u] eqn:Eu; [done|].
  destruct s as [|a' s]; [done|]. simpl in Hs. injection Hs as -> ->.
  simpl scan. rewrite E, Eu. simpl String.length.
  replace (S (String.length u) - 1) with (String.length u) by lia.
  rewrite scan_skip. do 2 f_equal. lia.
Qed.

Lemma scan_eof r pos : run r pos "" = [] → scan r pos "" 0 = [].
Proof. intros E. simpl. by rewrite E. Qed.

(** Offsets at which the pattern cannot match are passed over. *)
Lemma scan_pass r pos u s :
  (∀ v w, u = v +:+ w → w ≠ "" → run r (pos + String.length v) (w +:+ s) = []) →
  scan r pos (u +:+ s) 0 = scan r (pos + String.length u) s 0.
Proof.
  revert pos. induction u as [|a u IH]; intros pos H; simpl String.length.
  - by rewrite Nat.add_0_r.
  - change (String a u +:+ s) with (String a (u +:+ s)).
    rewrite scan_miss.
    + rewrite IH; [f_equal; lia|]. intros v w -> Hw.
      replace (S pos + String.length v) with (pos + String.length (String a v))
        by (simpl; lia).
      by apply H.
    + specialize (H "" (String a u) eq_refl). simpl in H.
      rewrite Nat.add_0_r in H. by apply H.
Qed.

(** ** Sequences *)

Lemma run_lit_seq l r pos s :
  run (Lit l ⋄ r) pos (l +:+ s) =
  (λ y, Found (groups y) (l +:+ eaten y) (rest y)) <$> run r (pos + String.length l) s.
Proof. simpl. rewrite strip_prefix_app. simpl. by rewrite app_nil_r. Qed.

Lemma run_lit_seq_None l r pos s :
  Str.strip_prefix l s = None → run (Lit l ⋄ r) pos s = [].
Proof. intros E. simpl. by rewrite E. Qed.

(** Greedy repetition followed by something that refuses every character
    of the class: only the longest repetition goes through. *)
Lemma greedy_bind_longest {B} p t s (k : string * string → list B) :
  Str.all p t = true →
  (∀ v b w, p b = true → k (v, String b w) = []) →
  greedy p s = [("", s)] →
  greedy p (t +:+ s) ≫= k = k (t, s).
Proof.
  revert k. induction t as [|a t IH]; intros k Ht Hk Hs.
  - change ("" +:+ s) with s. by rewrite Hs, bind_singleton.
  - simpl in Ht. apply andb_true_iff in Ht as [Ha Ht].
    change (String a t +:+ s) with (String a (t +:+ s)).
    simpl greedy. rewrite Ha.
    rewrite bind_app, list_fmap_bind, bind_singleton, (Hk _ _ _ Ha), app_nil_r.
    rewrite IH; [done..| |done]. intros v b w Hb. by apply Hk.
Qed.

(** Lazy repetition: the first split is reported at which what follows
    goes through. *)
Lemma reluctant_bind_first {B} p t s (k : string * string → list B) :
  Str.all p t = true →
  (∀ v w, t = v +:+ w → w ≠ "" → k (v, w +:+ s) = []) →
  ∃ others, reluctant p (t +:+ s) ≫= k = k (t, s) ++ others.
Proof.
  revert k. induction t as [|a t IH]; intros k Ht Hk.
  - destruct s as [|b s]; simpl reluctant; rewrite bind_cons; eauto.
  - simpl in Ht. apply andb_true_iff in Ht as [Ha Ht].
    change (String a t +:+ s) with (String a (t +:+ s)).
    simpl reluctant. rewrite Ha, bind_cons, list_fmap_bind.
    assert (H0 := Hk "" (String a t) eq_refl ltac:(done)).
    simpl in H0. rewrite H0, app_nil_l.
    destruct (IH (k ∘ more a) Ht) as [others E]; [|by exists others].
    intros v w -> Hw. by apply (Hk (String a v) w).
Qed.

End matcher.

(** * Shapes shared by the patterns *)

Section shapes.
Implicit Types (s t u v w l : string) (a b c : ascii) (p : ascii → bool).
Implicit Types (r next : regex) (x y : found) (pos : nat).

Lemma run_seq r1 r2 pos s :
  run (r1 ⋄ r2) pos s =
  run r1 pos s ≫= (λ x,
    (λ y, Found (groups x ++ groups y) (eaten x +:+ eaten y) (rest y))
      <$> run r2 (pos + String.length (eaten x)) (rest x)).
Proof. done. Qed.

Lemma run_group_star p pos s :
  run (Group (Star p)) pos s =
  (λ z : string * string, Found [(pos, z.1)] z.1 z.2) <$> greedy p s.
Proof. simpl. by rewrite <- list_fmap_compose. Qed.

Lemma run_group_lazy p pos s :
  run (Group (StarLazy p)) pos s =
  (λ z : string * string, Found [(pos, z.1)] z.1 z.2) <$> reluctant p s.
Proof. simpl. by rewrite <- list_fmap_compose. Qed.

Lemma run_group_plus p pos a s :
  p a = true →
  run (Group (Plus p)) pos (String a s) =
  (λ z : string * string, Found [(pos, String a z.1)] (String a z.1) z.2)
    <$> greedy p s.
Proof.
  intros Ha. simpl. rewrite Ha, bind_singleton. simpl.
  by rewrite <- !list_fmap_compose.
Qed.

Lemma greedy_stop p s :
  match s with "" => True | String b _ => p b = false end →
  greedy p s = [("", s)].
Proof. destruct s as [|b s]; simpl; [done|]. by intros ->. Qed.

(** A group of [[^c]] repeated, before something that cannot start with a
    character of the class: the group takes the whole run. *)
Lemma run_group_star_then p next pos t s :
  Str.all p t = true →
  (∀ q b w, p b = true → run next q (String b w) = []) →
  greedy p s = [("", s)] →
  run (Group (Star p) ⋄ next) pos (t +:+ s) =
  (λ y, Found ((pos, t) :: groups y) (t +:+ eaten y) (rest y))
    <$> run next (pos + String.length t) s.
Proof.
  intros Ht Hnext Hs. rewrite run_seq, run_group_star, list_fmap_bind.
  rewrite greedy_bind_longest; [done|done| |done].
  intros v b w Hb. simpl. by rewrite Hnext.
Qed.

Lemma run_group_plus_then p next pos a t s :
  p a = true → Str.all p t = true →
  (∀ q b w, p b = true → run next q (String b w) = []) →
  greedy p s = [("", s)] →
  run (Group (Plus p) ⋄ next) pos (String a (t +:+ s)) =
  (λ y, Found ((pos, String a t) :: groups y) (String a t +:+ eaten y) (rest y))
    <$> run next (pos + S (String.length t)) s.
Proof.
  intros Ha Ht Hnext Hs. rewrite run_seq, run_group_plus, list_fmap_bind by done.
  rewrite greedy_bind_longest; [done|done| |done].
  intros v b w Hb. simpl. by rewrite Hnext.
Qed.

Lemma lit_refuses c l pos b w :
  other_than c b = true → run (Lit (String c l)) pos (String b w) = [].
Proof.
  unfold other_than. intros Hb. simpl.
  rewrite Ascii.eqb_sym. by destruct (Ascii.eqb b c).
Qed.

Lemma lit_seq_refuses c l r pos b w :
  other_than c b = true → run (Lit (String c l) ⋄ r) pos (String b w) = [].
Proof. intros Hb. by rewrite run_seq, lit_refuses. Qed.

(** A lazy group before a lookahead [A]: the group stops at the first
    offset where [A] holds. *)
Lemma run_lazy_ahead A pos t s :
  (∀ q v w, t = v +:+ w → w ≠ "" → run A q (w +:+ s) = []) →
  (∀ q, ∃ y ys, run A q s = y :: ys ∧ groups y = []) →
  ∃ others,
    run (Group (StarLazy dot_all) ⋄ Ahead A) pos (t +:+ s) =
    Found [(pos, t)] t s :: others.
Proof.
  intros Hno Hyes. rewrite run_seq, run_group_lazy, list_fmap_bind.
  match goal with
  | |- context [reluctant dot_all (t +:+ s) ≫= ?k] =>
      destruct (reluctant_bind_first dot_all t s k) as [others ->]
  end.
  - clear. by induction t.
  - intros v w E Hw. simpl. by rewrite (Hno _ v w).
  - simpl. destruct (Hyes (pos + String.length t)) as (y & ys & -> & ->).
    simpl. rewrite str_app_nil_r. eauto.
Qed.

(** A heading: [\name{title}] followed by its body. *)
Lemma run_heading l A pos t body s :
  Str.mem "}" t = false →
  (∀ q v w, body = v +:+ w → w ≠ "" → run A q (w +:+ s) = []) →
  (∀ q, ∃ y ys, run A q s = y :: ys ∧ groups y = []) →
  ∃ others,
    run (Lit l ⋄ Group (Star (other_than "}")) ⋄ Lit "}" ⋄
         Group (StarLazy dot_all) ⋄ Ahead A) pos (l +:+ t +:+ "}" +:+ body +:+ s) =
    Found [(pos + String.length l, t);
           (pos + String.length l + String.length t + 1, body)]
          (l +:+ t +:+ "}" +:+ body) s :: others.
Proof.
  intros Ht Hno Hyes. rewrite mem_all, negb_false_iff in Ht.
  rewrite run_lit_seq, run_group_star_then;
    [|done|intros; by apply lit_seq_refuses|by apply greedy_stop].
  rewrite run_lit_seq.
  edestruct (run_lazy_ahead A) as [others ->]; [done..|].
  rewrite !fmap_cons. simpl. eauto.
Qed.

End shapes.

(** * read_text *)

Section read_text_proofs.
Implicit Types (s t u v w pre : string) (pos : nat).

Lemma before_end_cons a s :
  before_end (String a s) =
  if at_end (String a s) then "" else String a (before_end s).
Proof. done. Qed.

Lemma before_end_spec s :
  ∃ e, s = before_end s +:+ e ∧ at_end e = true ∧
       ∀ v w, before_end s = v +:+ w → w ≠ "" → at_end (w +:+ e) = false.
Proof.
  induction s as [|a s (e & Es & He & IH)].
  - exists "". split_and!; [done..|]. intros v w E Hw. simpl in E.
    destruct v, w; simpl in E; congruence.
  - destruct (at_end (String a s)) eqn:Ea.
    + exists (String a s). rewrite before_end_cons, Ea.
      split_and!; [done..|]. intros v w E Hw.
      destruct v, w; simpl in E; congruence.
    + exists e. rewrite before_end_cons, Ea. split_and!; [simpl; congruence|done|].
      intros [|b v] w E Hw; simpl in E.
      * subst w. simpl. rewrite <- Es. exact Ea.
      * injection E as -> E. eauto.
Qed.

Lemma at_end_inv e : at_end e = true → e = "" ∨ e = String "010" "".
Proof.
  destruct e as [|a [|??]]; simpl; [by left| |done].
  intros ->%Ascii.eqb_eq. by right.
Qed.

Lemma not_at_end w a b s : w ≠ "" → at_end (w +:+ String a (String b s)) = false.
Proof. destruct w as [|? [|? [|??]]]; by simpl. Qed.

(** The lookahead of [section_pattern] fails inside a body that holds no
    further heading and is followed by one. *)
Lemma ahead_section_inside q w s :
  Str.occurs "\section{" w = false → w ≠ "" →
  run (Alt (Lit "\section{") Dollar) q (w +:+ "\section{" +:+ s) = [].
Proof.
  intros Hw Hne. cbn [run].
  assert (E1 := no_straddle "\" "section{" w s eq_refl Hw Hne).
  assert (E2 := not_at_end w "\" "s" ("ection{" +:+ s) Hne).
  change (String "\" (String "s" ("ection{" +:+ s))) with ("\section{" +:+ s) in E2.
  by rewrite E1, E2.
Qed.

Lemma ahead_section_last q w e :
  Str.occurs "\section{" (w +:+ e) = false → at_end (w +:+ e) = false →
  run (Alt (Lit "\section{") Dollar) q (w +:+ e) = [].
Proof.
  intros Hw He. cbn [run]. by rewrite (occurs_false_here _ _ Hw), He.
Qed.

Lemma ahead_section_heading q s :
  ∃ y ys, run (Alt (Lit "\section{") Dollar) q ("\section{" +:+ s) = y :: ys
          ∧ groups y = [].
Proof. cbn [run]. rewrite strip_prefix_app. simpl. eauto. Qed.

Lemma ahead_section_end q e :
  Str.occurs "\section{" e = false → at_end e = true →
  ∃ y ys, run (Alt (Lit "\section{") Dollar) q e = y :: ys ∧ groups y = [].
Proof.
  intros Ho He. cbn [run]. rewrite (occurs_false_here _ _ Ho), He. simpl. eauto.
Qed.

Lemma scan_two_sections pos pre t1 c1 t2 c2 e :
  Str.mem "}" t1 = false → Str.mem "}" t2 = false →
  Str.occurs "\section{" pre = false →
  Str.occurs "\section{" c1 = false →
  Str.occurs "\section{" (c2 +:+ e) = false →
  at_end e = true →
  (∀ v w, c2 = v +:+ w → w ≠ "" → at_end (w +:+ e) = false) →
  let o1 := pos + String.length pre + 9 in
  let o2 := o1 + String.length t1 + 1 + String.length c1 + 9 in
  scan section_pattern pos
    (pre +:+ "\section{" +:+ t1 +:+ "}" +:+ c1 +:+
     "\section{" +:+ t2 +:+ "}" +:+ c2 +:+ e) 0 =
  [ [(o1, t1); (o1 + String.length t1 + 1, c1)];
    [(o2, t2); (o2 + String.length t2 + 1, c2)] ].
Proof.
  intros Ht1 Ht2 Hpre Hc1 Hc2 He Hlast o1 o2.
  rewrite scan_pass.
  2:{ intros v w -> Hw. apply run_lit_seq_None.
      apply occurs_false_app in Hpre as [_ Hpre].
      by apply (no_straddle "\" "section{"). }
  destruct (run_heading "\section{" (Alt (Lit "\section{") Dollar)
              (pos + String.length pre) t1 c1
              ("\section{" +:+ t2 +:+ "}" +:+ c2 +:+ e)) as [others1 E1];
    [done| |intros; apply ahead_section_heading|].
  { intros q v w -> Hw. apply occurs_false_app in Hc1 as [_ Hc1].
    by apply ahead_section_inside. }
  rewrite <- !str_app_assoc in E1. rewrite <- !str_app_assoc.
  erewrite scan_hit; [|exact E1|done]. clear E1. cbn [groups eaten rest].
  rewrite !str_app_assoc.
  assert (Hoe : Str.occurs "\section{" e = false)
    by (by apply occurs_false_app in Hc2 as [_ ?]).
  destruct (run_heading "\section{" (Alt (Lit "\section{") Dollar)
              (pos + String.length pre +
               String.length ("\section{" +:+ t1 +:+ "}" +:+ c1)) t2 c2 e)
    as [others2 E2]; [done| |intros; by apply ahead_section_end|].
  { intros q v w -> Hw. apply ahead_section_last; [|by eapply Hlast].
    rewrite str_app_assoc in Hc2. by apply occurs_false_app in Hc2 as [_ Hc2]. }
  rewrite <- !str_app_assoc in E2. rewrite <- !str_app_assoc.
  erewrite scan_hit; [|exact E2|done]. clear E2. cbn [groups eaten rest].
  assert (Hrest : ∀ q, scan section_pattern q e 0 = []).
  { intros q. by destruct (at_end_inv e He) as [-> | ->]. }
  rewrite Hrest. subst o1 o2. rewrite !str_length_app. simpl String.length.
  by rewrite !Nat.add_assoc.
Qed.

(** A body that holds no [\subsection{] has no subsections. *)
Lemma scan_absent l r pos s :
  Str.occurs l s = false → scan (Lit l ⋄ r) pos s 0 = [].
Proof.
  revert pos. induction s as [|a s IH]; intros pos H.
  - apply scan_eof, run_lit_seq_None. by apply occurs_false_here.
  - rewrite scan_miss by by apply run_lit_seq_None, occurs_false_here.
    apply IH. simpl in H. by destruct (Str.strip_prefix l (String a s)).
Qed.

End read_text_proofs.

Lemma findall2_absent l r text :
  Str.occurs l text = false → findall2 (Lit l ⋄ r) text = [].
Proof. intros H. unfold findall2, finditer. by rewrite scan_absent. Qed.


(** C4. A text made of a preamble, a first section heading with its body
    and a second section heading with its body, with no other section
    heading and no subsection heading anywhere, parses into exactly two
    sections, in text order. The first content is the whole text between
    the two headings: its span starts right after the first heading and ends
    at the offset where the second heading starts. The second content runs
    from the second heading to the place where [$] holds. *)
Theorem read_text_two_sections pre t1 c1 t2 c2 :
  let heading1 := "\section{" +:+ t1 +:+ "}" in
  let heading2 := "\section{" +:+ t2 +:+ "}" in
  let text := pre +:+ heading1 +:+ c1 +:+ heading2 +:+ c2 in
  Str.mem "}" t1 = false → Str.mem "}" t2 = false →
  Str.occurs "\section{" pre = false →
  Str.occurs "\section{" c1 = false →
  Str.occurs "\section{" c2 = false →
  Str.occurs "\subsection{" text = false →
  sections (read_text text) =
    [ {| title := t1; content := c1; subsections := [] |};
      {| title := t2; content := before_end c2; subsections := [] |} ]
  ∧ finditer section_pattern text =
    [ [(String.length pre + 9, t1);
       (String.length (pre +:+ heading1), c1)];
      [(String.length (pre +:+ heading1 +:+ c1) + 9, t2);
       (String.length (pre +:+ heading1 +:+ c1 +:+ heading2), before_end c2)] ].
Proof.
  intros heading1 heading2 text Ht1 Ht2 Hpre Hc1 Hc2 Hsub.
  subst heading1 heading2 text. rewrite !str_app_assoc in Hsub |- *.
  destruct (before_end_spec c2) as (e & E & He & Hlast).
  remember (before_end c2) as c2' eqn:Ec2'. subst c2.
  assert (Hscan := scan_two_sections 0 pre t1 c1 t2 c2' e Ht1 Ht2 Hpre Hc1 Hc2 He Hlast).
  cbn zeta in Hscan.
  assert (Hs1 : Str.occurs "\subsection{" c1 = false).
  { do 4 apply occurs_false_app in Hsub as [_ Hsub].
    by apply occurs_false_app in Hsub as [? _]. }
  assert (Hs2 : Str.occurs "\subsection{" c2' = false).
  { do 8 apply occurs_false_app in Hsub as [_ Hsub].
    by apply occurs_false_app in Hsub as [? _]. }
  split.
  - assert (F1 : findall2 subsection_pattern c1 = []) by by apply findall2_absent.
    assert (F2 : findall2 subsection_pattern c2' = []) by by apply findall2_absent.
    unfold read_text. cbn [sections]. unfold findall2 at 1, finditer.
    rewrite Hscan. cbn -[findall2]. unfold read_section. cbn -[findall2].
    by rewrite F1, F2.
  - unfold finditer. rewrite Hscan, !str_length_app. simpl String.length.
    repeat (f_equal; try lia).
Qed.

(** * Texts without markup *)


(** * Reading matches back *)

Section inversion.
Implicit Types (s t u v w l d : string) (a b c : ascii) (p : ascii → bool).
Implicit Types (r : regex) (x y : found) (pos skip : nat) (g : list span).

(** Every entry of a scan is the first match at some offset. *)
Lemma scan_elem r pos s skip g :
  g ∈ scan r pos s skip →
  ∃ u s' x xs, s = u +:+ s' ∧ run r (pos + String.length u) s' = x :: xs
               ∧ groups x = g.
Proof.
  revert pos skip. induction s as [|a s IH]; intros pos skip.
  - destruct skip; simpl; [|by intros ?%elem_of_nil].
    destruct (run r pos "") as [|x xs] eqn:E; [by intros ?%elem_of_nil|].
    intros ->%list_elem_of_singleton. exists "", "", x, xs.
    by rewrite Nat.add_0_r.
  - assert (Hlater : ∀ k, g ∈ scan r (S pos) s k →
      ∃ u s' x xs, String a s = u +:+ s'
                   ∧ run r (pos + String.length u) s' = x :: xs ∧ groups x = g).
    { intros k (u & s' & x & xs & -> & E & <-)%IH.
      exists (String a u), s', x, xs. split_and!; [done| |done].
      rewrite <- E. f_equal. simpl. lia. }
    destruct skip; simpl; [|by apply Hlater].
    destruct (run r pos (String a s)) as [|x xs] eqn:E; [by apply Hlater|].
    rewrite elem_of_cons. intros [->|H]; [|by eapply Hlater].
    exists "", (String a s), x, xs. by rewrite Nat.add_0_r.
Qed.

Lemma run_seq_inv r1 r2 pos s x :
  x ∈ run (r1 ⋄ r2) pos s →
  ∃ x1 x2, x1 ∈ run r1 pos s
           ∧ x2 ∈ run r2 (pos + String.length (eaten x1)) (rest x1)
           ∧ x = Found (groups x1 ++ groups x2) (eaten x1 +:+ eaten x2) (rest x2).
Proof.
  rewrite run_seq.
  intros [x1 [[x2 [-> H2]]%list_elem_of_fmap H1]]%list_elem_of_bind. eauto.
Qed.

Lemma run_lit_inv l pos s x :
  x ∈ run (Lit l) pos s → x = Found [] l (rest x) ∧ s = l +:+ rest x.
Proof.
  simpl. destruct (Str.strip_prefix l s) as [s'|] eqn:E; [|by intros ?%elem_of_nil].
  intros ->%list_elem_of_singleton. by apply strip_prefix_Some in E.
Qed.

(** A pattern that opens with a literal consumes at least that literal:
    no pattern of the program matches the empty string. *)
Lemma lit_seq_eats c l r pos s x :
  x ∈ run (Lit (String c l) ⋄ r) pos s → eaten x ≠ "".
Proof. by intros (x1 & x2 & [-> _]%run_lit_inv & _ & ->)%run_seq_inv. Qed.

Lemma greedy_all p s (z : string * string) : z ∈ greedy p s → Str.all p z.1 = true.
Proof.
  revert z. induction s as [|a s IH]; intros z; simpl.
  - by intros ->%list_elem_of_singleton.
  - destruct (p a) eqn:Ha; [|by intros ->%list_elem_of_singleton].
    rewrite elem_of_app, list_elem_of_fmap, list_elem_of_singleton.
    intros [[z' [-> Hz']]| ->]; [|done]. simpl. by rewrite Ha, (IH z').
Qed.

Lemma run_group_plus_inv p pos s x :
  x ∈ run (Group (Plus p)) pos s →
  ∃ a t, p a = true ∧ Str.all p t = true
         ∧ x = Found [(pos, String a t)] (String a t) (rest x)
         ∧ s = String a t +:+ rest x.
Proof.
  destruct s as [|a s]; [by intros ?%elem_of_nil|].
  destruct (p a) eqn:Ha.
  - rewrite run_group_plus by done. intros [z [-> Hz]]%list_elem_of_fmap.
    exists a, z.1. split_and!; [done|by eapply greedy_all|done|].
    simpl. by rewrite <- (greedy_sound p s z).
  - simpl. rewrite Ha. by intros ?%elem_of_nil.
Qed.

(** What a match of [d ( [^$]+ ) d] looks like, for [d] a run of dollars. *)
Lemma run_dollars_inv d pos s x :
  x ∈ run (Lit d ⋄ Group (Plus (other_than "$")) ⋄ Lit d) pos s →
  ∃ a t s', other_than "$" a = true ∧ Str.all (other_than "$") t = true
            ∧ s = d +:+ String a t +:+ d +:+ s'
            ∧ x = Found [(pos + String.length d, String a t)]
                        (d +:+ String a t +:+ d) s'.
Proof.
  intros (x1 & x' & [-> Hs]%run_lit_inv & H' & ->)%run_seq_inv.
  cbn [eaten rest groups] in H'.
  apply run_seq_inv in H' as (x2 & x3 & H2 & H3 & ->).
  apply run_group_plus_inv in H2 as (a & t & Ha & Ht & -> & Hs2).
  apply run_lit_inv in H3 as [-> Hs3]. cbn [eaten rest groups] in *.
  exists a, t, (rest x3). split_and!; [done..| |done].
  by rewrite Hs, Hs2, Hs3.
Qed.

Lemma run_inline pos a t s :
  other_than "$" a = true → Str.all (other_than "$") t = true →
  run inline_pattern pos ("$" +:+ String a t +:+ "$" +:+ s) =
  [Found [(pos + 1, String a t)] ("$" +:+ String a t +:+ "$") s].
Proof.
  intros Ha Ht. unfold inline_pattern. rewrite run_lit_seq.
  change (String a t +:+ "$" +:+ s) with (String a (t +:+ "$" +:+ s)).
  rewrite run_group_plus_then;
    [|done|done|intros; by apply lit_refuses|by apply greedy_stop].
  cbn [run]. by rewrite strip_prefix_app.
Qed.

End inversion.

(** * check_formulas: what the inline pattern finds inside a display formula *)

Section formulas_overlap.
Implicit Types (s t u v w : string) (a b c : ascii) (pos n : nat).

Lemma scan_inline_here pos a t s :
  other_than "$" a = true → Str.all (other_than "$") t = true →
  [(pos + 1, String a t)] ∈ scan inline_pattern pos ("$" +:+ String a t +:+ "$" +:+ s) 0.
Proof.
  intros Ha Ht. erewrite scan_hit; [|by apply run_inline|done]. by left.
Qed.

(** Behind two dollars, a run of other characters and one more dollar, the
    scan for inline formulas reports that run, whatever comes before. *)
Lemma scan_inline_catches n : ∀ u pos a t s,
  String.length u ≤ n →
  other_than "$" a = true → Str.all (other_than "$") t = true →
  [(pos + String.length u + 2, String a t)]
    ∈ scan inline_pattern pos (u +:+ String "$" ("$" +:+ String a t +:+ "$" +:+ s)) 0.
Proof.
  induction n as [|n IH]; intros u pos a t s Hn Ha Ht.
  - apply Nat.le_0_r, str_length_zero in Hn as ->.
    change ("" +:+ ?x) with x. rewrite scan_miss by done.
    replace (pos + String.length "" + 2) with (S pos + 1) by (simpl; lia).
    by apply scan_inline_here.
  - destruct u as [|c u].
    { apply (IH "" pos); [simpl; lia|done..]. }
    change (String c u +:+ ?x) with (String c (u +:+ x)).
    simpl in Hn.
    replace (pos + String.length (String c u) + 2)
      with (S pos + String.length u + 2) by (simpl; lia).
    destruct (run inline_pattern pos
                (String c (u +:+ String "$" ("$" +:+ String a t +:+ "$" +:+ s))))
      as [|x xs] eqn:E.
    { rewrite scan_miss by done. apply IH; [lia|done..]. }
    assert (Hx : x ∈ x :: xs) by by left.
    rewrite <- E in Hx.
    apply (run_dollars_inv "$") in Hx as (a' & t' & s' & Ha' & Ht' & Es & ->).
    erewrite scan_hit; [|exact E|done]. right. cbn [eaten rest].
    simpl in Es. injection Es as -> Es.
    assert (Hdone : s' = "$" +:+ String a t +:+ "$" +:+ s → u = String a' t' →
      [(S pos + String.length u + 2, String a t)]
        ∈ scan inline_pattern
            (pos + String.length ("$" +:+ String a' t' +:+ "$")) s' 0).
    { intros -> ->.
      replace (S pos + String.length (String a' t') + 2)
        with (pos + String.length ("$" +:+ String a' t' +:+ "$") + 1)
        by (rewrite !str_length_app; simpl; lia).
      by apply scan_inline_here. }
    change (String a' (t' +:+ String "$" s')) with (String a' t' +:+ String "$" s') in Es.
    apply str_app_eq_inv in Es as [[k [Eu Ek]]|[k [Eb Ek]]].
    + destruct k as [|d k].
      * rewrite str_app_nil_r in Eu. simpl in Ek. injection Ek as ->.
        by apply Hdone.
      * simpl in Ek. injection Ek as <- ->. subst u.
        replace (S pos + String.length (String a' t' +:+ String "$" k) + 2)
          with (pos + String.length ("$" +:+ String a' t' +:+ "$")
                + String.length k + 2)
          by (rewrite !str_length_app; simpl; lia).
        apply IH; [|done..]. rewrite str_length_app in Hn. simpl in Hn. lia.
    + destruct k as [|d k].
      * rewrite str_app_nil_r in Eb. simpl in Ek. injection Ek as <-.
        by apply Hdone.
      * simpl in Ek. injection Ek as <- _.
        assert (Hall : Str.all (other_than "$") (String a' t') = true)
          by (simpl; by rewrite Ha', Ht').
        rewrite Eb, all_app in Hall. simpl in Hall.
        by rewrite andb_false_r in Hall.
Qed.

End formulas_overlap.

Lemma findall_captured r text :
  Forall (λ g, ∃ sp, g = [sp]) (finditer r text) →
  findall r text = (captured r text).*2.
Proof.
  unfold findall, captured. induction 1 as [|g gs [sp ->] _ IH]; [done|].
  cbn. by rewrite IH.
Qed.

Lemma finditer_dollars d text :
  Forall (λ g, ∃ sp, g = [sp])
         (finditer (Lit d ⋄ Group (Plus (other_than "$")) ⋄ Lit d) text).
Proof.
  apply Forall_forall. intros g (u & s' & x & xs & -> & E & <-)%scan_elem.
  assert (Hx : x ∈ x :: xs) by by left.
  rewrite <- E in Hx.
  apply run_dollars_inv in Hx as (a & t & s'' & _ & _ & _ & ->). eauto.
Qed.

Lemma finditer_environment env text :
  Forall (λ g, ∃ sp, g = [sp]) (finditer (environment env) text).
Proof.
  apply Forall_forall. intros g (u & s' & x & xs & -> & E & <-)%scan_elem.
  assert (Hx : x ∈ x :: xs) by by left.
  rewrite <- E in Hx. unfold environment in Hx.
  apply run_seq_inv in Hx as (x1 & x' & [-> _]%run_lit_inv & H' & ->).
  apply run_seq_inv in H' as (x2 & x3 & H2 & [-> _]%run_lit_inv & ->).
  rewrite run_group_lazy in H2. apply list_elem_of_fmap in H2 as [z [-> _]].
  cbn. eauto.
Qed.

(** The four lists of [check_formulas] are the texts of [formula_spans]. *)
Lemma check_formulas_spans text :
  formulas (check_formulas text)
  = (λ entry, (entry.1, entry.2.*2)) <$> formula_spans text.
Proof.
  unfold check_formulas, formula_spans. cbn [formulas fmap list_fmap fst snd].
  rewrite !(findall_captured inline_pattern), !(findall_captured display_pattern),
    !(findall_captured (environment _));
    [done|apply finditer_environment..|apply finditer_dollars|apply finditer_dollars].
Qed.

(** The claim of disjoint categories fails on a display formula: its body
    is captured a second time as an inline formula. *)
Lemma categories_overlap : ¬ disjoint_categories "$$x$$".
Proof.
  intros H.
  apply (H 0 1 "inline" "display" [(2, "x")] [(2, "x")] (2, "x") (2, "x"));
    [done|reflexivity|reflexivity|by left|by left|].
  split; simpl; lia.
Qed.

(** Nor are the environments kept apart from the dollar patterns: an inline
    formula inside an equation is captured from inside the equation body. *)
Example inline_inside_equation :
  ¬ disjoint_categories "\begin{equation}$a$\end{equation}".
Proof.
  intros H.
  apply (H 0 2 "inline" "equation" [(17, "a")] [(16, "$a$")] (17, "a") (16, "$a$"));
    [done|reflexivity|reflexivity|by left|by left|].
  split; simpl; lia.
Qed.

(** C1 (amended). The four categories are extracted one by one from the
    whole text, and they are not disjoint: on every text, every span captured
    as a display formula is captured as an inline formula too, so every
    entry of the display list is an entry of the inline list. *)
Theorem display_formulas_are_inline_formulas text :
  (∀ sp, sp ∈ captured display_pattern text → sp ∈ captured inline_pattern text)
  ∧ (∀ formula, formula ∈ findall display_pattern text →
                formula ∈ findall inline_pattern text).
Proof.
  assert (Hspans : ∀ sp, sp ∈ captured display_pattern text →
                         sp ∈ captured inline_pattern text).
  { intros sp (g & Hg & Hsp)%list_elem_of_omap.
    apply scan_elem in Hg as (u & s' & x & xs & -> & E & <-).
    assert (Hx : x ∈ x :: xs) by by left.
    rewrite <- E in Hx.
    apply (run_dollars_inv "$$") in Hx as (a & t & s'' & Ha & Ht & -> & ->).
    cbn in Hsp. injection Hsp as <-.
    apply list_elem_of_omap. exists [(0 + String.length u + 2, String a t)].
    split; [|done].
    apply (scan_inline_catches (String.length u) u 0 a t ("$" +:+ s'')); done. }
  split; [done|]. intros formula.
  rewrite !findall_captured by apply finditer_dollars.
  rewrite !list_elem_of_fmap. intros (sp & -> & Hsp). eauto.
Qed.

(** * analyze_citations *)

Lemma list_to_set_filter_not_in (l k : list string) :
  (list_to_set (filter (λ x, x ∉ k) l) : gset string)
  = list_to_set l ∖ list_to_set k.
Proof.
  apply set_eq. intros x.
  rewrite elem_of_difference, !elem_of_list_to_set, list_elem_of_filter. tauto.
Qed.

(** A key declared twice is listed twice and counted twice. *)
Lemma cross_reference_not_sets :
  ¬ cross_reference_as_sets "\cite{x} \bibitem{y} \bibitem{y}".
Proof.
  intros (Hnodup & _). vm_compute in Hnodup.
  apply NoDup_cons in Hnodup as [Hin _]. apply Hin. by left.
Qed.

(** C2 (amended). The two difference lists are the bibliography keys that
    are not cited and the citation keys that are not declared, each in text
    order with one entry per occurrence; as sets they are the two set
    differences. [citation_count] is the size of the set of citation keys,
    [bibliography_count] the number of bibliography entries. *)
Theorem cross_reference_report text :
  let report := analyze_citations text in
  let CitationSet : gset string := list_to_set (citation_keys text) in
  let BibliographySet : gset string := list_to_set (bibliography_keys text) in
  unused_references report
    = filter (λ ref, ref ∉ citation_keys text) (bibliography_keys text)
  ∧ missing_references report
    = filter (λ cite, cite ∉ bibliography_keys text) (citation_keys text)
  ∧ list_to_set (unused_references report) = BibliographySet ∖ CitationSet
  ∧ list_to_set (missing_references report) = CitationSet ∖ BibliographySet
  ∧ citation_count report = size CitationSet
  ∧ bibliography_count report = length (bibliography_keys text).
Proof.
  intros report CitationSet BibliographySet. subst report. cbn.
  split_and!; [done|done| | |done|done]; apply list_to_set_filter_not_in.
Qed.

(** * The pass-through helpers *)

(** [optimize_equation] hands back [None]: no input, no instruction. *)
Lemma optimize_equation_passes_nothing :
  ¬ ∃ inputs instruction, passes_through inputs instruction optimize_equation.
Proof. intros (inputs & instruction & items & H & _). discriminate H. Qed.

(** C3 (amended). [rewrite_paragraph] hands back its three inputs unchanged
    together with one fixed instruction; [optimize_equation] takes no input
    and hands back [None]. Neither computes a rewritten text. *)
Theorem helpers_pass_through :
  (∀ paragraph context style,
     rewrite_paragraph paragraph context style =
       PyDict [("paragraph", paragraph); ("context", context); ("style", style);
               ("instruction", rewrite_instruction)]
     ∧ passes_through [paragraph; context; style] rewrite_instruction
         (rewrite_paragraph paragraph context style))
  ∧ optimize_equation = PyNone.
Proof.
  split; [|done]. intros paragraph context style. split; [done|].
  eexists. split; [done|]. split.
  - intros i. cbn. rewrite !elem_of_cons, !elem_of_nil. tauto.
  - rewrite !elem_of_cons. tauto.
Qed.

(** * check_term_consistency *)

Section terms.
Implicit Types (st : TermState) (term key : string) (l seen : list string).
Implicit Types (inc : Inconsistency).

(** The nested loops visit the terms of [all_terms] one after the other. *)
Lemma foldl_see_pattern text st (ps : list regex) :
  foldl (see_pattern text) st ps
  = foldl see_term st (ps ≫= (λ pattern, findall pattern text)).
Proof.
  revert st. induction ps as [|p ps IH]; intros st; [done|].
  rewrite bind_cons, foldl_app. apply IH.
Qed.

Lemma term_loop_flat text : term_loop text = foldl see_term start (all_terms text).
Proof. apply foldl_see_pattern. Qed.

(** The table never changes an entry: a key keeps the first spelling
    recorded for it. *)
Lemma see_term_lookup st term key :
  found_terms (see_term st term) !! key =
  match found_terms st !! key with
  | Some v => Some v
  | None => if decide (Str.lower term = key) then Some term else None
  end.
Proof.
  unfold see_term. destruct (found_terms st !! Str.lower term) as [canon|] eqn:E.
  - assert (found_terms (if bool_decide (canon ≠ term)
               && bool_decide (term ∉ (map_img (found_terms st) : gset string))
             then {| found_terms := found_terms st;
                     inconsistencies := inconsistencies st ++
                       [ {| original := canon; variant := term;
                            suggestion := "Consider using '" +:+ canon +:+
                                          "' consistently" |} ] |}
             else st) = found_terms st) as -> by by case_match.
    destruct (found_terms st !! key) eqn:E'; [done|].
    case_decide; [congruence|done].
  - cbn [found_terms]. rewrite lookup_insert.
    case_decide as Hk; [subst key; by rewrite E|].
    by destruct (found_terms st !! key).
Qed.

Lemma foldl_see_term_lookup l st key :
  found_terms (foldl see_term st l) !! key =
  match found_terms st !! key with
  | Some v => Some v
  | None => head (filter (λ term, Str.lower term = key) l)
  end.
Proof.
  revert st. induction l as [|term l IH]; intros st; simpl foldl.
  - by destruct (found_terms st !! key).
  - rewrite IH, see_term_lookup. destruct (found_terms st !! key); [done|].
    case_decide.
    + by rewrite filter_cons_True.
    + by rewrite filter_cons_False.
Qed.

Lemma consistent_with_start : consistent_with [] start.
Proof.
  split; [|by intros ??%elem_of_nil].
  intros key v H. cbn in H. by rewrite lookup_empty in H.
Qed.

Lemma see_term_consistent seen st term :
  consistent_with seen st → consistent_with (seen ++ [term]) (see_term st term).
Proof.
  intros [Htable Hincs]. split.
  - intros key v. rewrite see_term_lookup.
    destruct (found_terms st !! key) as [v'|] eqn:E.
    + intros [= <-]. destruct (Htable _ _ E). split; [|done].
      apply elem_of_app. by left.
    + case_decide; [|done]. intros [= <-]. split; [|done].
      apply elem_of_app. right. by left.
  - assert (Hold : ∀ inc, inc ∈ inconsistencies st →
      variant inc ∈ seen ++ [term] ∧ original inc ∈ seen ++ [term]
      ∧ Str.lower (original inc) = Str.lower (variant inc)
      ∧ original inc ≠ variant inc).
    { intros inc (? & ? & ? & ?)%Hincs.
      split_and!; [apply elem_of_app; by left..|done|done]. }
    unfold see_term.
    destruct (found_terms st !! Str.lower term) as [canon|] eqn:E; [|done].
    destruct (bool_decide (canon ≠ term)) eqn:Hne; [|done].
    destruct (bool_decide (term ∉ (map_img (found_terms st) : gset string)));
      [|done].
    cbn [andb inconsistencies]. intros inc [Hin| ->%list_elem_of_singleton]%elem_of_app;
      [by apply Hold|].
    apply bool_decide_eq_true in Hne. destruct (Htable _ _ E) as [Hseen Hlow].
    cbn. split_and!; [|apply elem_of_app; by left|done..].
    apply elem_of_app. right. by left.
Qed.

Lemma foldl_see_term_consistent l seen st :
  consistent_with seen st → consistent_with (seen ++ l) (foldl see_term st l).
Proof.
  revert seen st. induction l as [|term l IH]; intros seen st H.
  - by rewrite app_nil_r.
  - rewrite cons_middle, app_assoc. by apply IH, see_term_consistent.
Qed.

Lemma term_loop_consistent text :
  consistent_with (all_terms text) (term_loop text).
Proof.
  rewrite term_loop_flat.
  apply (foldl_see_term_consistent _ []), consistent_with_start.
Qed.

End terms.

(** C5. On the text of the example the checker returns exactly one
    inconsistency, with original [Foo] and variant [foo]. On any text in
    which every term with a given lower-cased key has one and the same
    spelling, no inconsistency is returned for that key. *)
Theorem term_check_same_spelling text key spelling update_cache term_cache :
  Forall (λ term, Str.lower term = key → term = spelling) (all_terms text) →
  report_inconsistencies
    (check_term_consistency "\term{Foo} ... \term{foo}" false term_cache).1
  = [ {| original := "Foo"; variant := "foo";
         suggestion := "Consider using 'Foo' consistently" |} ]
  ∧ filter (λ inc, Str.lower (variant inc) = key ∨ Str.lower (original inc) = key)
      (report_inconsistencies
         (check_term_consistency text update_cache term_cache).1)
    = [].
Proof.
  intros Hsame. split; [by vm_compute|].
  rewrite Forall_forall in Hsame. cbn [fst check_term_consistency report_inconsistencies].
  match goal with |- ?l = [] => destruct l as [|inc incs] eqn:E; [done|] end.
  assert (Hinc : inc ∈ inc :: incs) by by left.
  rewrite <- E in Hinc. apply list_elem_of_filter in Hinc as [Hkeys Hinc].
  destruct (term_loop_consistent text) as [_ Hincs].
  destruct (Hincs _ Hinc) as (Hv & Ho & Hlow & Hne).
  destruct Hne. destruct Hkeys as [Hkey|Hkey].
  - rewrite (Hsame _ Hv Hkey). apply Hsame; [done|congruence].
  - rewrite (Hsame _ Ho Hkey). symmetry. apply Hsame; [done|congruence].
Qed.

Lemma term_check_same_spelling_witness :
  report_inconsistencies
    (check_term_consistency "\term{Foo} ... \term{foo}" false ∅).1
  = [ {| original := "Foo"; variant := "foo";
         suggestion := "Consider using 'Foo' consistently" |} ]
  ∧ filter (λ inc, Str.lower (variant inc) = "foo" ∨ Str.lower (original inc) = "foo")
      (report_inconsistencies
         (check_term_consistency "\term{Foo} ... \term{Foo} \textbf{Bar}" false ∅).1)
    = [].
Proof.
  apply (term_check_same_spelling _ "foo" "Foo").
  apply (bool_decide_unpack _). vm_compute. exact I.
Defined.

(** C6. After a call with [update_cache] set, the term cache is the table
    of that call: the object returned under [terms], the table the loop
    built from the text, holding for each key the first term of that key in
    the order of the loop and nothing else, whatever the cache held before.
    (Without [update_cache] the cache is left as it was.) *)
Theorem term_cache_overwritten text term_cache :
  let out := check_term_consistency text true term_cache in
  out.2 = terms out.1
  ∧ out.2 = found_terms (term_loop text)
  ∧ (∀ key, out.2 !! key
            = head (filter (λ term, Str.lower term = key) (all_terms text)))
  ∧ (check_term_consistency text false term_cache).2 = term_cache.
Proof.
  unfold check_term_consistency. cbn [fst snd terms].
  split_and!; [done..| |done]. intros key.
  by rewrite term_loop_flat, foldl_see_term_lookup.
Qed.

(** C9. The spelling recorded for a key is the first one in the order of
    the pattern families (all [\textit] terms, then all [\textbf] terms,
    then [\term], then [\cite]), not the first one in the text: in the
    example the bold [FOO] stands before the emphasised [foo], and [foo] is
    recorded while [FOO] is reported as the variant. *)
Theorem canonical_by_pattern_order :
  (∀ text update_cache term_cache key,
     terms (check_term_consistency text update_cache term_cache).1 !! key
     = head (filter (λ term, Str.lower term = key)
               (findall (braced "textit") text ++ findall (braced "textbf") text ++
                findall (braced "term") text ++ findall (braced "cite") text)))
  ∧ let text := "\textbf{FOO} \textit{foo}" in
    captured (braced "textbf") text = [(8, "FOO")]
    ∧ captured (braced "textit") text = [(21, "foo")]
    ∧ terms (check_term_consistency text false ∅).1 !! "foo" = Some "foo"
    ∧ report_inconsistencies (check_term_consistency text false ∅).1
      = [ {| original := "foo"; variant := "FOO";
             suggestion := "Consider using 'foo' consistently" |} ].
Proof.
  split.
  - intros text update_cache term_cache key.
    unfold check_term_consistency. cbn [fst terms].
    rewrite term_loop_flat, foldl_see_term_lookup.
    unfold all_terms, term_patterns. rewrite !bind_cons.
    change ([] ≫= _) with (@nil string). by rewrite app_nil_r.
  - cbn zeta. split_and!; by vm_compute.
Qed.

(** C10. Every later occurrence of a variant spelling is reported, repeated
    ones included: in the example [foo] follows the recorded [Foo] twice and
    the list holds the same entry twice. *)
Theorem repeated_variant_reported_twice :
  let inc := {| original := "Foo"; variant := "foo";
                suggestion := "Consider using 'Foo' consistently" |} in
  all_terms "\term{Foo} \term{foo} \term{foo}" = ["Foo"; "foo"; "foo"]
  ∧ report_inconsistencies
      (check_term_consistency "\term{Foo} \term{foo} \term{foo}" false ∅).1
    = [inc; inc].
Proof. cbn zeta. split; by vm_compute. Qed.

(** * check_formulas: parentheses *)

Lemma mismatched_reported formula_type idx formula :
  Str.count "(" formula ≠ Str.count ")" formula →
  mismatched formula_type idx ∈ formula_errors formula_type idx formula.
Proof.
  intros H. unfold formula_errors. rewrite bool_decide_eq_true_2 by done.
  by left.
Qed.

(** C7. On the text of the example the only formula is the inline formula
    [(a+b], with one opening and no closing parenthesis, and the errors are
    the one message for inline formula 1. In general every extracted
    formula whose two counts differ has its message, with its category and
    its index counted from 1, among the errors. *)
Theorem mismatched_parentheses_reported text i category formulas_of idx formula :
  formulas (check_formulas text) !! i = Some (category, formulas_of) →
  formulas_of !! idx = Some formula →
  Str.count "(" formula ≠ Str.count ")" formula →
  (formulas (check_formulas "$(a+b$") =
     [("inline", ["(a+b"]); ("display", []); ("equation", []); ("align", [])]
   ∧ Str.count "(" "(a+b" = 1 ∧ Str.count ")" "(a+b" = 0
   ∧ errors (check_formulas "$(a+b$") = ["inline formula #1 has mismatched parentheses"])
  ∧ category +:+ " formula #" +:+ Str.of_nat (idx + 1) +:+ " has mismatched parentheses"
    ∈ errors (check_formulas text).
Proof.
  intros Hcat Hidx Hcount. split; [split_and!; by vm_compute|].
  change (errors (check_formulas text))
    with (formulas (check_formulas text) ≫= category_errors).
  apply list_elem_of_bind. exists (category, formulas_of).
  split; [|by eapply list_elem_of_lookup_2].
  unfold category_errors. apply list_elem_of_join.
  exists (formula_errors category idx formula).
  split; [by apply mismatched_reported|].
  by apply (elem_of_lookup_imap_2 (formula_errors category)).
Qed.

Lemma mismatched_parentheses_reported_witness :
  (formulas (check_formulas "$(a+b$") =
     [("inline", ["(a+b"]); ("display", []); ("equation", []); ("align", [])]
   ∧ Str.count "(" "(a+b" = 1 ∧ Str.count ")" "(a+b" = 0
   ∧ errors (check_formulas "$(a+b$") = ["inline formula #1 has mismatched parentheses"])
  ∧ "display" +:+ " formula #" +:+ Str.of_nat (1 + 1) +:+ " has mismatched parentheses"
    ∈ errors (check_formulas "$$f(x$$ and $$g(y))$$").
Proof.
  apply (mismatched_parentheses_reported _ 1 "display" ["f(x"; "g(y))"] 1 "g(y))");
    [reflexivity|reflexivity|vm_compute; lia].
Defined.

Lemma read_text_two_sections_witness :
  sections (read_text ("intro \section{A}x \section{B}y" +:+ String "010" "")) =
    [ {| title := "A"; content := "x "; subsections := [] |};
      {| title := "B"; content := "y"; subsections := [] |} ]
  ∧ finditer section_pattern ("intro \section{A}x \section{B}y" +:+ String "010" "") =
    [ [(15, "A"); (17, "x ")]; [(28, "B"); (30, "y")] ].
Proof.
  apply (read_text_two_sections "intro " "A" "x " "B" ("y" +:+ String "010" ""));
    reflexivity.
Defined.

(** * Reading the first match back *)

Section first_match.
Implicit Types (s t u v w l : string) (a b c : ascii) (p : ascii → bool).
Implicit Types (r A : regex) (x y : found) (pos q : nat).

(** The head of a lazy repetition: the split it reports goes through and
    no shorter one does. *)
Lemma reluctant_bind_head {B} p s (k : string * string → list B) z zs :
  reluctant p s ≫= k = z :: zs →
  ∃ u s' ys, s = u +:+ s' ∧ k (u, s') = z :: ys
             ∧ ∀ v w, u = v +:+ w → w ≠ "" → k (v, w +:+ s') = [].
Proof.
  revert k. induction s as [|a s IH]; intros k; simpl reluctant.
  - rewrite bind_singleton. intros E. exists "", "", zs. split_and!; [done..|].
    intros v w Hvw Hw. destruct v, w; simpl in Hvw; congruence.
  - rewrite bind_cons. destruct (k ("", String a s)) as [|y ys] eqn:Ek.
    + rewrite app_nil_l. destruct (p a); [|done].
      rewrite list_fmap_bind. intros (u & s' & ys & -> & Eu & Hu)%IH.
      exists (String a u), s', ys. split_and!; [done..|].
      intros [|a' v] w Hvw Hw; simpl in Hvw.
      * subst w. exact Ek.
      * injection Hvw as <- ->. by apply (Hu v w).
    + intros [= <- _]. exists "", (String a s), ys. split_and!; [done..|].
      intros v w Hvw Hw. destruct v, w; simpl in Hvw; congruence.
Qed.

Lemma groupless_groups r pos s x : groupless r = true → x ∈ run r pos s → groups x = [].
Proof.
  revert pos s x. induction r as [l|p|p|p|r1 IH1 r2 IH2|r1 IH1 r2 IH2|r IH|r IH|];
    intros pos s x Hr; simpl in Hr |- *; try apply andb_true_iff in Hr as [Hr1 Hr2].
  - destruct (Str.strip_prefix l s); [|by intros ?%elem_of_nil].
    by intros ->%list_elem_of_singleton.
  - destruct s as [|a s]; [by intros ?%elem_of_nil|].
    destruct (p a); [|by intros ?%elem_of_nil]. by intros ->%list_elem_of_singleton.
  - by intros [z [-> _]]%list_elem_of_fmap.
  - by intros [z [-> _]]%list_elem_of_fmap.
  - intros [x1 [[y [-> Hy]]%list_elem_of_fmap Hx1]]%list_elem_of_bind. simpl.
    by rewrite (IH1 _ _ _ Hr1 Hx1), (IH2 _ _ _ Hr2 Hy).
  - rewrite elem_of_app. intros [H|H]; eauto.
  - done.
  - destruct (run r pos s) as [|y ys] eqn:E; [by intros ?%elem_of_nil|].
    intros ->%list_elem_of_singleton. simpl. apply (IH pos s); [done|].
    rewrite E. by left.
  - destruct (at_end s); [|by intros ?%elem_of_nil]. by intros ->%list_elem_of_singleton.
Qed.

Lemma run_group_star_inv p pos s x :
  x ∈ run (Group (Star p)) pos s →
  Str.all p (eaten x) = true ∧ x = Found [(pos, eaten x)] (eaten x) (rest x).
Proof.
  rewrite run_group_star. intros [z [-> Hz]]%list_elem_of_fmap.
  split; [by eapply greedy_all|done].
Qed.

Lemma fmap_eq_cons_found (f : found → found) (xs : list found) x xs' :
  f <$> xs = x :: xs' → ∃ y ys, xs = y :: ys ∧ x = f y.
Proof. destruct xs as [|y ys]; [done|]. intros [= <- _]. eauto. Qed.

(** A lazy group before a lookahead, read back from the first match. *)
Lemma run_lazy_ahead_inv A pos s x xs :
  groupless A = true →
  run (Group (StarLazy dot_all) ⋄ Ahead A) pos s = x :: xs →
  ∃ body, s = body +:+ rest x
          ∧ x = Found [(pos, body)] body (rest x)
          ∧ run A (pos + String.length body) (rest x) ≠ []
          ∧ ∀ v w, body = v +:+ w → w ≠ "" →
                   run A (pos + String.length v) (w +:+ rest x) = [].
Proof.
  intros HA. rewrite run_seq, run_group_lazy, list_fmap_bind.
  intros (u & s' & ys & -> & Ek & Hk)%reluctant_bind_head. simpl in Ek.
  destruct (run A (pos + String.length u) s') as [|y ys'] eqn:EA; [done|].
  assert (Hy : groups y = []).
  { apply (groupless_groups A (pos + String.length u) s'); [done|].
    rewrite EA. by left. }
  simpl in Ek. injection Ek as <- _. rewrite Hy, str_app_nil_r. simpl.
  exists u. split_and!; [done|done|by rewrite EA|].
  intros v w Hvw Hw. specialize (Hk v w Hvw Hw). simpl in Hk.
  by destruct (run A (pos + String.length v) (w +:+ s')).
Qed.

(** A heading with its body, read back from the first match. *)
Lemma run_heading_inv l A pos s x xs :
  groupless A = true →
  run (Lit l ⋄ Group (Star (other_than "}")) ⋄ Lit "}" ⋄
       Group (StarLazy dot_all) ⋄ Ahead A) pos s = x :: xs →
  ∃ t body,
    Str.mem "}" t = false
    ∧ s = l +:+ t +:+ "}" +:+ body +:+ rest x
    ∧ x = Found [(pos + String.length l, t);
                 (pos + String.length l + String.length t + 1, body)]
                (l +:+ t +:+ "}" +:+ body) (rest x)
    ∧ run A (pos + String.length l + String.length t + 1 + String.length body)
          (rest x) ≠ []
    ∧ ∀ v w, body = v +:+ w → w ≠ "" →
             run A (pos + String.length l + String.length t + 1 + String.length v)
                 (w +:+ rest x) = [].
Proof.
  intros HA E.
  assert (Hx : x ∈ x :: xs) by by left.
  rewrite <- E in Hx.
  apply run_seq_inv in Hx as (x1 & x1' & [_ Hs]%run_lit_inv & H1 & _).
  assert (∃ s1, s = l +:+ s1) as [s1 ->] by eauto. clear Hs H1 x1 x1'.
  set (q := pos + String.length l) in *.
  rewrite run_lit_seq in E. fold q in E.
  apply fmap_eq_cons_found in E as (x1 & xs1 & E & ->).
  assert (Hx : x1 ∈ x1 :: xs1) by by left.
  rewrite <- E in Hx.
  apply run_seq_inv in Hx as (x2 & x2' & Hx2 & H2 & _).
  assert (Hs1 := run_sound _ _ _ _ Hx2).
  apply run_group_star_inv in Hx2 as [Ht _].
  apply run_seq_inv in H2 as (x3 & _ & [_ Hs3]%run_lit_inv & _ & _).
  rewrite Hs3 in Hs1. clear Hs3.
  generalize dependent (rest x3). generalize dependent (eaten x2).
  intros t Ht s3 ->. clear x2 x2' x3.
  rewrite run_group_star_then in E;
    [|done|intros; by apply lit_seq_refuses|by apply greedy_stop].
  rewrite run_lit_seq in E.
  apply fmap_eq_cons_found in E as (x2 & xs2 & E & ->).
  apply fmap_eq_cons_found in E as (x3 & xs3 & E & ->).
  apply run_lazy_ahead_inv in E as (body & Hs & -> & Hyes & Hno); [|done].
  cbn [groups eaten rest] in *.
  exists t, body. subst q. split_and!; [|by rewrite Hs|done|done|done].
  by rewrite mem_all, Ht.
Qed.

(** A braced command, read back from any of its matches. *)
Lemma run_braced_inv l pos s x :
  x ∈ run (Lit l ⋄ Group (Star (other_than "}")) ⋄ Lit "}") pos s →
  ∃ t, Str.mem "}" t = false
       ∧ s = l +:+ t +:+ "}" +:+ rest x
       ∧ x = Found [(pos + String.length l, t)] (l +:+ t +:+ "}") (rest x).
Proof.
  intros (x1 & x' & [-> Hs]%run_lit_inv & H' & ->)%run_seq_inv.
  cbn [eaten rest groups] in H'.
  apply run_seq_inv in H' as (x2 & x3 & Hx2 & H3 & ->).
  assert (Hs2 := run_sound _ _ _ _ Hx2).
  apply run_group_star_inv in Hx2 as [Ht ->].
  apply run_lit_inv in H3 as [-> Hs3]. cbn [eaten rest groups] in *.
  exists (eaten x2). split_and!; [by rewrite mem_all, Ht| |done].
  by rewrite Hs, Hs2, Hs3.
Qed.

(** A literal that starts at no offset of [u], with [s'] behind [u], does
    not occur in [u]. *)
Lemma occurs_false_of_suffixes e u s' :
  e ≠ "" →
  (∀ v w, u = v +:+ w → w ≠ "" → Str.strip_prefix e (w +:+ s') = None) →
  Str.occurs e u = false.
Proof.
  intros He. induction u as [|a u IH]; intros H.
  - by destruct e.
  - simpl. destruct (Str.strip_prefix e (String a u)) as [r|] eqn:E.
    + apply strip_prefix_Some in E.
      assert (E' := H "" (String a u) eq_refl ltac:(done)).
      rewrite strip_prefix_None in E'. destruct (E' (r +:+ s')).
      by rewrite E, str_app_assoc.
    + apply IH. intros v w -> Hw. by apply (H (String a v) w).
Qed.

(** An environment, read back from the first match: the body stops at the
    first closing command. *)
Lemma run_environment_inv env pos s x xs :
  run (environment env) pos s = x :: xs →
  ∃ body,
    s = ("\begin{" +:+ env +:+ "}") +:+ body +:+ ("\end{" +:+ env +:+ "}") +:+ rest x
    ∧ x = Found [(pos + String.length ("\begin{" +:+ env +:+ "}"), body)]
            (("\begin{" +:+ env +:+ "}") +:+ body +:+ ("\end{" +:+ env +:+ "}"))
            (rest x)
    ∧ Str.occurs ("\end{" +:+ env +:+ "}") body = false.
Proof.
  unfold environment. intros E.
  assert (Hx : x ∈ x :: xs) by by left.
  rewrite <- E in Hx.
  apply run_seq_inv in Hx as (x1 & x1' & [_ Hs]%run_lit_inv & _ & _).
  assert (∃ s1, s = ("\begin{" +:+ env +:+ "}") +:+ s1) as [s1 ->] by eauto.
  clear Hs x1 x1'. rewrite run_lit_seq in E.
  apply fmap_eq_cons_found in E as (x1 & xs1 & E & ->).
  rewrite run_seq, run_group_lazy, list_fmap_bind in E.
  apply reluctant_bind_head in E as (u & s' & ys & -> & Ek & Hk).
  unfold compose in Ek, Hk. cbn [run eaten rest groups fst snd] in Ek, Hk.
  destruct (Str.strip_prefix ("\end{" +:+ env +:+ "}") s') as [r|] eqn:Er; [|done].
  apply strip_prefix_Some in Er as ->. injection Ek as <- _.
  cbn [groups eaten rest]. exists u. split_and!; [done|done|].
  apply (occurs_false_of_suffixes _ _ (("\end{" +:+ env +:+ "}") +:+ r)).
  { by destruct env. }
  intros v w Hvw Hw. specialize (Hk v w Hvw Hw).
  by destruct (Str.strip_prefix _ (w +:+ _)).
Qed.

(** ** A text and its matches *)

Lemma interleave_push a (pieces : list (string * string)) tail :
  ∃ pieces' tail',
    String a (interleave pieces +:+ tail) = interleave pieces' +:+ tail'
    ∧ pieces'.*2 = pieces.*2.
Proof.
  destruct pieces as [|[gap piece] pieces].
  - by exists [], (String a tail).
  - by exists ((String a gap, piece) :: pieces), tail.
Qed.

(** The matches of a scan, with the text between them, make up the text. *)
Lemma scan_rebuild r n : ∀ s pos,
  (∀ q s' x, x ∈ run r q s' → eaten x ≠ "") →
  String.length s ≤ n →
  ∃ (hits : list found) (gaps : list string) tail,
    length gaps = length hits
    ∧ s = interleave (zip gaps (eaten <$> hits)) +:+ tail
    ∧ scan r pos s 0 = groups <$> hits
    ∧ Forall (λ x, ∃ q s' xs, run r q s' = x :: xs) hits.
Proof.
  induction n as [|n IH]; intros s pos Heats Hn.
  - apply Nat.le_0_r, str_length_zero in Hn as ->.
    destruct (run r pos "") as [|x xs] eqn:E.
    + exists [], [], "". by rewrite scan_eof.
    + assert (Hx : x ∈ run r pos "") by (rewrite E; by left).
      assert (Hs := run_sound _ _ _ _ Hx). apply Heats in Hx.
      destruct (eaten x); [done|discriminate Hs].
  - destruct (run r pos s) as [|x xs] eqn:E.
    + destruct s as [|a s]; [exists [], [], ""; by rewrite scan_eof|].
      rewrite scan_miss by done. simpl in Hn.
      destruct (IH s (S pos) Heats ltac:(lia))
        as (hits & gaps & tail & Hlen & -> & -> & Hhits).
      destruct hits as [|x hits], gaps as [|gap gaps]; try done.
      * by exists [], [], (String a tail).
      * by exists (x :: hits), (String a gap :: gaps), tail.
    + assert (Hx : x ∈ run r pos s) by (rewrite E; by left).
      assert (Hs := run_sound _ _ _ _ Hx). assert (Hne := Heats _ _ _ Hx).
      rewrite (scan_hit _ _ _ _ _ E Hne).
      destruct (IH (rest x) (pos + String.length (eaten x)) Heats)
        as (hits & gaps & tail & Hlen & Hrest & -> & Hhits).
      { rewrite Hs, str_length_app in Hn.
        destruct (eaten x); [done|]. simpl in Hn. lia. }
      exists (x :: hits), ("" :: gaps), tail. split_and!.
      * simpl. by rewrite Hlen.
      * rewrite Hs at 1. rewrite Hrest at 1. simpl. by rewrite str_app_assoc.
      * done.
      * constructor; [eauto|done].
Qed.

End first_match.

(** * read_text: what every entry holds *)

Section read_text_entries.
Implicit Types (s t u v w text : string) (x : found) (q : nat).

Lemma finditer_rebuild c l r text :
  ∃ (hits : list found) (gaps : list string) tail,
    length gaps = length hits
    ∧ text = interleave (zip gaps (eaten <$> hits)) +:+ tail
    ∧ finditer (Lit (String c l) ⋄ r) text = groups <$> hits
    ∧ Forall (λ x, ∃ q s' xs, run (Lit (String c l) ⋄ r) q s' = x :: xs) hits.
Proof.
  apply (scan_rebuild _ (String.length text)); [|done].
  intros q s' x. apply lit_seq_eats.
Qed.

(** The first match of the section pattern at some offset. *)
Lemma section_hit q s x xs :
  run section_pattern q s = x :: xs →
  ∃ t body o1 o2,
    Str.mem "}" t = false
    ∧ Str.occurs "\section{" body = false
    ∧ groups x = [(o1, t); (o2, body)]
    ∧ eaten x = "\section{" +:+ t +:+ "}" +:+ body.
Proof.
  intros (t & body & Ht & _ & Hx & _ & Hno)%run_heading_inv; [|done].
  exists t, body. eexists _, _. split_and!; [done| |by rewrite Hx..].
  apply (occurs_false_of_suffixes _ _ (rest x)); [done|].
  intros v w Hvw Hw. specialize (Hno v w Hvw Hw). cbn [run] in Hno.
  by destruct (Str.strip_prefix "\section{" (w +:+ rest x)).
Qed.

(** The first match of the subsection pattern at some offset. *)
Lemma subsection_hit q s x xs :
  run subsection_pattern q s = x :: xs →
  ∃ t body o1 o2,
    Str.mem "}" t = false
    ∧ Str.occurs "\subsection{" body = false
    ∧ Str.occurs "\section{" body = false
    ∧ groups x = [(o1, t); (o2, body)]
    ∧ eaten x = "\subsection{" +:+ t +:+ "}" +:+ body.
Proof.
  intros (t & body & Ht & _ & Hx & _ & Hno)%run_heading_inv; [|done].
  exists t, body. eexists _, _. split_and!; [done| | |by rewrite Hx..].
  - apply (occurs_false_of_suffixes _ _ (rest x)); [done|].
    intros v w Hvw Hw. specialize (Hno v w Hvw Hw). cbn [run] in Hno.
    by destruct (Str.strip_prefix "\subsection{" (w +:+ rest x)).
  - apply (occurs_false_of_suffixes _ _ (rest x)); [done|].
    intros v w Hvw Hw. specialize (Hno v w Hvw Hw). cbn [run] in Hno.
    destruct (Str.strip_prefix "\subsection{" (w +:+ rest x)); [done|].
    by destruct (Str.strip_prefix "\section{" (w +:+ rest x)).
Qed.

Lemma section_in text sec :
  sec ∈ sections (read_text text) →
  ∃ q s x xs, run section_pattern q s = x :: xs
              ∧ sec = read_section (group 1 (groups x), group 2 (groups x)).
Proof.
  unfold read_text, findall2. cbn [sections]. rewrite <- list_fmap_compose.
  intros (g & -> & (u & s' & x & xs & -> & E & <-)%scan_elem)%list_elem_of_fmap.
  by eexists _, _, _, _.
Qed.

Lemma subsection_in body (sub : Subsection) :
  sub ∈ read_subsection <$> findall2 subsection_pattern body →
  ∃ q s x xs, run subsection_pattern q s = x :: xs
              ∧ sub = read_subsection (group 1 (groups x), group 2 (groups x)).
Proof.
  unfold findall2. rewrite <- list_fmap_compose.
  intros (g & -> & (u & s' & x & xs & -> & E & <-)%scan_elem)%list_elem_of_fmap.
  by eexists _, _, _, _.
Qed.

End read_text_entries.

(** X1. Whatever the text, the sections of [read_text] are pieces of it:
    the text is made of the headings with their contents, as returned and in
    the order returned, each behind the text that separates it from the one
    before (the text in front of the first heading included), and of what
    is left behind the last one. *)
Theorem read_text_sections_are_the_text text :
  ∃ gaps tail,
    length gaps = length (sections (read_text text))
    ∧ text = interleave (zip gaps (section_source <$> sections (read_text text)))
             +:+ tail.
Proof.
  destruct (finditer_rebuild "\" "section{"
              (Group (Star (other_than "}")) ⋄ Lit "}" ⋄ Group (StarLazy dot_all)
               ⋄ Ahead (Alt (Lit "\section{") Dollar)) text)
    as (hits & gaps & tail & Hlen & Htext & Hiter & Hhits).
  exists gaps, tail. unfold read_text, findall2. cbn [sections].
  change (finditer section_pattern text = groups <$> hits) in Hiter.
  rewrite Hiter, !length_fmap. split; [done|].
  rewrite Htext at 1. do 3 f_equal. rewrite <- !list_fmap_compose.
  apply Forall_fmap_ext_1. eapply Forall_impl; [exact Hhits|].
  intros x (q & s' & xs & (t & body & o1 & o2 & _ & _ & Hg & ->)%section_hit).
  simpl. by rewrite Hg.
Qed.

(** X2. Every section returned by [read_text] has a title without a
    closing brace and a content in which no further section heading opens;
    every subsection of it has a title without a closing brace and a content
    in which neither a subsection heading nor a section heading opens. *)
Theorem read_text_entries_are_bounded text i sec :
  sections (read_text text) !! i = Some sec →
  (Str.mem "}" (title sec) = false ∧ Str.occurs "\section{" (content sec) = false)
  ∧ Forall (λ sub, Str.mem "}" (sub_title sub) = false
                   ∧ Str.occurs "\subsection{" (sub_content sub) = false
                   ∧ Str.occurs "\section{" (sub_content sub) = false)
           (subsections sec).
Proof.
  intros (q & s & x & xs & (t & body & o1 & o2 & Ht & Hbody & Hg & _)%section_hit
          & ->)%list_elem_of_lookup_2%section_in.
  rewrite Hg. split; [done|]. apply Forall_forall. intros sub Hsub.
  cbn [read_section subsections snd] in Hsub.
  apply subsection_in in Hsub
    as (q' & s' & x' & xs' & (t' & body' & o1' & o2' & Ht' & H1 & H2 & Hg' & _)%subsection_hit
        & ->).
  by rewrite Hg'.
Qed.

Lemma read_text_entries_are_bounded_witness :
  (Str.mem "}" "A" = false ∧ Str.occurs "\section{" "x\subsection{s}y" = false)
  ∧ Forall (λ sub, Str.mem "}" (sub_title sub) = false
                   ∧ Str.occurs "\subsection{" (sub_content sub) = false
                   ∧ Str.occurs "\section{" (sub_content sub) = false)
           [ {| sub_title := "s"; sub_content := "y" |} ].
Proof.
  apply (read_text_entries_are_bounded
           "pre\section{A}x\subsection{s}y\section{B}z" 0
           {| title := "A"; content := "x\subsection{s}y";
              subsections := [ {| sub_title := "s"; sub_content := "y" |} ] |}).
  reflexivity.
Defined.

(** X3. The subsections of every section are pieces of its content, in the
    order returned: the content is made of the subsection headings with
    their contents, each behind the text that separates it from the one
    before, and of what is left behind the last one. *)
Theorem read_text_subsections_are_the_content text i sec :
  sections (read_text text) !! i = Some sec →
  ∃ gaps tail,
    length gaps = length (subsections sec)
    ∧ content sec = interleave (zip gaps (subsection_source <$> subsections sec))
                    +:+ tail.
Proof.
  intros (q & s & x & xs & _ & ->)%list_elem_of_lookup_2%section_in.
  cbn [read_section subsections content snd].
  destruct (finditer_rebuild "\" "subsection{"
              (Group (Star (other_than "}")) ⋄ Lit "}" ⋄ Group (StarLazy dot_all)
               ⋄ Ahead (Alt (Lit "\subsection{") (Alt (Lit "\section{") Dollar)))
              (group 2 (groups x)))
    as (hits & gaps & tail & Hlen & Htext & Hiter & Hhits).
  exists gaps, tail. unfold findall2.
  change (finditer subsection_pattern (group 2 (groups x)) = groups <$> hits) in Hiter.
  rewrite Hiter, !length_fmap. split; [done|].
  rewrite Htext at 1. do 3 f_equal. rewrite <- !list_fmap_compose.
  apply Forall_fmap_ext_1. eapply Forall_impl; [exact Hhits|].
  intros x' (q' & s' & xs' & (t & body & o1 & o2 & _ & _ & _ & Hg & ->)%subsection_hit).
  simpl. by rewrite Hg.
Qed.

Lemma read_text_subsections_are_the_content_witness :
  ∃ gaps tail,
    length gaps = 1
    ∧ "x\subsection{s}y" =
      interleave (zip gaps [subsection_source {| sub_title := "s"; sub_content := "y" |}])
      +:+ tail.
Proof.
  apply (read_text_subsections_are_the_content
           "pre\section{A}x\subsection{s}y\section{B}z" 0
           {| title := "A"; content := "x\subsection{s}y";
              subsections := [ {| sub_title := "s"; sub_content := "y" |} ] |}).
  reflexivity.
Defined.

(** * Texts written entry by entry *)

Section entries.
Implicit Types (s t u v w l pre gap : string) (a b c : ascii) (pos : nat).

Lemma run_braced l pos t s :
  Str.mem "}" t = false →
  run (Lit l ⋄ Group (Star (other_than "}")) ⋄ Lit "}") pos (l +:+ t +:+ "}" +:+ s) =
  [Found [(pos + String.length l, t)] (l +:+ t +:+ "}") s].
Proof.
  intros Ht. rewrite mem_all, negb_false_iff in Ht.
  rewrite run_lit_seq, run_group_star_then;
    [|done|intros; by apply lit_refuses|by apply greedy_stop].
  cbn [run]. by rewrite strip_prefix_app.
Qed.

(** Commands [\name{...}] written one after the other, each followed by
    text in which no further one opens, are found one by one. *)
Lemma scan_braced_entries c l (entries : list (string * string)) : ∀ pre pos,
  Str.mem c l = false →
  Str.occurs (String c l) pre = false →
  Forall (λ e, Str.mem "}" e.1 = false ∧ Str.occurs (String c l) e.2 = false) entries →
  group 1 <$> scan (Lit (String c l) ⋄ Group (Star (other_than "}")) ⋄ Lit "}") pos
                (pre +:+ concat_all ((λ e, String c l +:+ e.1 +:+ "}" +:+ e.2) <$> entries)) 0
  = entries.*1.
Proof.
  induction entries as [|[t gap] entries IH]; intros pre pos Hc Hpre Hall.
  - simpl. by rewrite str_app_nil_r, scan_absent.
  - apply Forall_cons in Hall as [[Ht Hgap] Hall]. cbn [fst snd] in Ht, Hgap.
    rewrite fmap_cons. cbn [concat_all fst snd]. rewrite !str_app_assoc.
    rewrite scan_pass.
    2:{ intros v w -> Hw. apply run_lit_seq_None.
        apply occurs_false_app in Hpre as [_ Hpre].
        by apply (no_straddle c l). }
    erewrite scan_hit; [|by apply run_braced|done].
    cbn [groups eaten rest]. rewrite !fmap_cons. cbn [fst]. f_equal.
    by apply IH.
Qed.

Lemma findall_braced_entries name (entries : list (string * string)) pre :
  Str.mem "\" (name +:+ "{") = false →
  Str.occurs ("\" +:+ name +:+ "{") pre = false →
  Forall (λ e, Str.mem "}" e.1 = false
               ∧ Str.occurs ("\" +:+ name +:+ "{") e.2 = false) entries →
  findall (braced name)
    (pre +:+ concat_all ((λ e, ("\" +:+ name +:+ "{") +:+ e.1 +:+ "}" +:+ e.2) <$> entries))
  = entries.*1.
Proof. intros. by apply (scan_braced_entries "\" (name +:+ "{")). Qed.

End entries.

(** X4. A bibliography written entry by entry is read back key by key: for
    a text made of a preamble and of entries [\bibitem{key}] each followed
    by some text, with no closing brace in a key and no [\bibitem{] in the
    preamble or in the texts between, the bibliography keys are the keys of
    the entries, in order and with their repetitions. *)
Theorem bibliography_read_back pre (entries : list (string * string)) :
  Str.occurs "\bibitem{" pre = false →
  Forall (λ entry, Str.mem "}" entry.1 = false
                   ∧ Str.occurs "\bibitem{" entry.2 = false) entries →
  let text := pre +:+ concat_all (bibitem_entry <$> entries) in
  bibliography_keys text = entries.*1
  ∧ bibliography_count (analyze_citations text) = length entries.
Proof.
  intros Hpre Hall text.
  assert (E : bibliography_keys text = entries.*1)
    by by apply (findall_braced_entries "bibitem").
  split; [done|]. cbn. by rewrite E, length_fmap.
Qed.

Lemma bibliography_read_back_witness :
  let text := "Refs: " +:+ concat_all (bibitem_entry <$> [("a", " A. "); ("b", " B. "); ("a", "")]) in
  bibliography_keys text = ["a"; "b"; "a"]
  ∧ bibliography_count (analyze_citations text) = 3.
Proof.
  apply (bibliography_read_back "Refs: " [("a", " A. "); ("b", " B. "); ("a", "")]).
  - reflexivity.
  - apply (bool_decide_unpack _). vm_compute. exact I.
Defined.

(** * Splitting and stripping *)

Section split_strip.
Implicit Types (s t k piece : string) (a c sep : ascii).

Lemma split_pieces_no_sep sep s :
  Str.mem sep (Str.split_pieces sep s).1 = false
  ∧ Forall (λ piece, Str.mem sep piece = false) (Str.split_pieces sep s).2.
Proof.
  induction s as [|a s [IH1 IH2]]; simpl; [done|].
  destruct (Ascii.eqb a sep) eqn:E; simpl.
  - split; [done|]. by constructor.
  - by rewrite E.
Qed.

(** No piece of a split holds the separator. *)
Lemma split_no_sep sep s : Forall (λ piece, Str.mem sep piece = false) (Str.split sep s).
Proof. destruct (split_pieces_no_sep sep s). by constructor. Qed.

Lemma split_pieces_sub c sep s :
  Str.mem c s = false →
  Str.mem c (Str.split_pieces sep s).1 = false
  ∧ Forall (λ piece, Str.mem c piece = false) (Str.split_pieces sep s).2.
Proof.
  induction s as [|a s IH]; simpl; [done|].
  intros [Ha Hs]%orb_false_iff. destruct (IH Hs) as [IH1 IH2].
  destruct (Ascii.eqb a sep); simpl.
  - split; [done|]. by constructor.
  - by rewrite Ha.
Qed.

(** A character that is not in the string is in none of its pieces. *)
Lemma split_sub c sep s :
  Str.mem c s = false → Forall (λ piece, Str.mem c piece = false) (Str.split sep s).
Proof. intros H. destruct (split_pieces_sub c sep s H). by constructor. Qed.

Lemma split_cons_other sep a s :
  Ascii.eqb a sep = false →
  Str.split sep (String a s)
  = String a (Str.split_pieces sep s).1 :: (Str.split_pieces sep s).2.
Proof. intros E. unfold Str.split. simpl. by rewrite E. Qed.

Lemma split_single sep k : Str.mem sep k = false → Str.split sep k = [k].
Proof.
  unfold Str.split. induction k as [|a k IH]; simpl; [done|].
  intros [Ha Hk]%orb_false_iff. rewrite Ha. simpl.
  specialize (IH Hk). by injection IH as -> ->.
Qed.

Lemma split_app sep k s :
  Str.mem sep k = false →
  Str.split sep (k +:+ String sep s) = k :: Str.split sep s.
Proof.
  unfold Str.split. induction k as [|a k IH]; simpl.
  - by rewrite Ascii.eqb_refl.
  - intros [Ha Hk]%orb_false_iff. rewrite Ha. simpl.
    specialize (IH Hk). by injection IH as -> ->.
Qed.

Lemma lstrip_head s :
  match Str.lstrip s with "" => True | String a _ => Str.isspace a = false end.
Proof.
  induction s as [|a s IH]; simpl; [done|].
  by destruct (Str.isspace a) eqn:E.
Qed.

Lemma rstrip_cons a s :
  Str.isspace a = false → Str.rstrip (String a s) = String a (Str.rstrip s).
Proof. intros E. simpl. rewrite E. by destruct (Str.rstrip s). Qed.

Lemma rstrip_rstrip s : Str.rstrip (Str.rstrip s) = Str.rstrip s.
Proof.
  induction s as [|a s IH]; [done|]. simpl.
  destruct (Str.rstrip s) as [|b r] eqn:E.
  - destruct (Str.isspace a) eqn:Ea; simpl; [done|]. by rewrite Ea.
  - simpl. simpl in IH. by rewrite IH.
Qed.

(** Stripping twice is stripping once. *)
Lemma strip_strip s : Str.strip (Str.strip s) = Str.strip s.
Proof.
  unfold Str.strip. assert (H := lstrip_head s).
  destruct (Str.lstrip s) as [|a s'] eqn:E; [done|].
  rewrite rstrip_cons by done. simpl Str.lstrip. rewrite H.
  by rewrite rstrip_cons, rstrip_rstrip.
Qed.

Lemma lstrip_sub c s : Str.mem c s = false → Str.mem c (Str.lstrip s) = false.
Proof.
  induction s as [|a s IH]; simpl; [done|].
  intros H. destruct (Str.isspace a); [|done].
  apply orb_false_iff in H as [_ H]. by apply IH.
Qed.

Lemma rstrip_sub c s : Str.mem c s = false → Str.mem c (Str.rstrip s) = false.
Proof.
  induction s as [|a s IH]; simpl; [done|].
  intros [Ha Hs]%orb_false_iff. specialize (IH Hs).
  destruct (Str.rstrip s) as [|b r].
  - destruct (Str.isspace a); simpl; [done|]. by rewrite Ha.
  - simpl. simpl in IH. by rewrite Ha, IH.
Qed.

(** Stripping brings in no character. *)
Lemma strip_sub c s : Str.mem c s = false → Str.mem c (Str.strip s) = false.
Proof. intros H. by apply rstrip_sub, lstrip_sub. Qed.

Lemma strip_space s : Str.strip (String " " s) = Str.strip s.
Proof. done. Qed.

Lemma mem_join c (glue : string) (l : list string) :
  Str.mem c glue = false → Forall (λ k, Str.mem c k = false) l →
  Str.mem c (join glue l) = false.
Proof.
  intros Hglue. induction 1 as [|k l Hk Hl IH]; [done|].
  destruct l as [|k' l]; [done|].
  change (join glue (k :: k' :: l)) with (k +:+ glue +:+ join glue (k' :: l)).
  by rewrite !mem_app, Hk, Hglue, IH.
Qed.

(** Keys joined by a comma and a blank come apart again. *)
Lemma strip_split_join (keys : list string) :
  keys ≠ [] → Forall clean_key keys →
  Str.strip <$> Str.split "," (join ", " keys) = keys.
Proof.
  intros Hne Hall. induction Hall as [|k l (Hcomma & _ & Hstrip) Hl IH]; [done|].
  destruct l as [|k' l].
  - simpl join. rewrite split_single by done. simpl. by rewrite Hstrip.
  - change (join ", " (k :: k' :: l))
      with (k +:+ String "," (String " " (join ", " (k' :: l)))).
    rewrite split_app by done. rewrite fmap_cons, Hstrip. f_equal.
    rewrite split_cons_other by done. rewrite fmap_cons, strip_space.
    by apply IH.
Qed.

End split_strip.

(** X5. Citation commands are read back key by key: for a text made of a
    preamble and of commands [\cite{k1, k2, ...}], each with at least one key
    and followed by some text, with clean keys (no comma, no closing brace,
    no white space at either end) and no [\cite{] in the preamble or in the
    texts between, the citation keys are the keys of the commands, in order
    and with their repetitions. *)
Theorem citations_read_back pre (entries : list (list string * string)) :
  Str.occurs "\cite{" pre = false →
  Forall (λ entry, entry.1 ≠ [] ∧ Forall clean_key entry.1
                   ∧ Str.occurs "\cite{" entry.2 = false) entries →
  citation_keys (pre +:+ concat_all (cite_entry <$> entries)) = mjoin (entries.*1).
Proof.
  intros Hpre Hall. unfold citation_keys.
  assert (E : findall (braced "cite") (pre +:+ concat_all (cite_entry <$> entries))
              = (λ entry, join ", " entry.1) <$> entries).
  { replace (cite_entry <$> entries)
      with ((λ e : string * string, ("\" +:+ "cite" +:+ "{") +:+ e.1 +:+ "}" +:+ e.2)
              <$> ((λ entry : list string * string, (join ", " entry.1, entry.2))
                     <$> entries))
      by by rewrite <- list_fmap_compose.
    rewrite findall_braced_entries; [by rewrite <- !list_fmap_compose|done..|].
    apply Forall_fmap. eapply Forall_impl; [exact Hall|].
    intros [keys gap] (_ & Hkeys & Hgap). split; [|done]. simpl.
    apply mem_join; [done|]. eapply Forall_impl; [exact Hkeys|]. by intros k (_ & ? & _). }
  rewrite E. clear E Hpre.
  induction Hall as [|[keys gap] entries (Hne & Hkeys & _) _ IH]; [done|].
  rewrite !fmap_cons.
  change (mjoin (?x :: ?l)) with (x ++ mjoin l). cbn [fst].
  by rewrite fmap_app, strip_split_join, IH.
Qed.

Lemma citations_read_back_witness :
  citation_keys
    ("See " +:+ concat_all (cite_entry <$> [(["knuth84"; "lamport 94"], " and "); (["knuth84"], ".")]))
  = ["knuth84"; "lamport 94"; "knuth84"].
Proof.
  apply (citations_read_back "See "
           [(["knuth84"; "lamport 94"], " and "); (["knuth84"], ".")]).
  - reflexivity.
  - repeat constructor; discriminate.
Defined.

(** What a braced command holds has no closing brace in it. *)
Lemma findall_braced_no_brace name text :
  Forall (λ body, Str.mem "}" body = false) (findall (braced name) text).
Proof.
  apply Forall_forall. intros body. unfold findall.
  intros (g & -> & (u & s' & x & xs & -> & E & <-)%scan_elem)%list_elem_of_fmap.
  assert (Hx : x ∈ x :: xs) by by left.
  rewrite <- E in Hx. by apply run_braced_inv in Hx as (t & Ht & _ & ->).
Qed.

(** X6. Whatever the text, every citation key is clean: it holds no comma
    and no closing brace and has no white space at either end (stripping it
    again changes nothing); and no bibliography key holds a closing brace. *)
Theorem keys_are_clean text :
  Forall clean_key (citation_keys text)
  ∧ Forall (λ key, Str.mem "}" key = false) (bibliography_keys text).
Proof.
  assert (Hbodies := λ name, findall_braced_no_brace name text).
  split; [|apply Hbodies].
  unfold citation_keys. apply Forall_fmap, Forall_forall.
  intros piece (body & Hpiece & Hbody)%list_elem_of_join.
  apply list_elem_of_fmap in Hbody as (body' & -> & Hbody').
  assert (Hbrace : Str.mem "}" body' = false).
  { specialize (Hbodies "cite"). rewrite Forall_forall in Hbodies. by apply Hbodies. }
  assert (H1 := split_no_sep "," body'). assert (H2 := split_sub "}" "," body' Hbrace).
  rewrite Forall_forall in H1, H2. simpl. split_and!.
  - by apply strip_sub, H1.
  - by apply strip_sub, H2.
  - apply strip_strip.
Qed.

(** * read_text on a text written section by section *)

Lemma section_entries_open (entries : list (string * string)) t c e :
  ∃ s, concat_all (section_entry <$> entries) +:+ section_entry (t, c) +:+ e
       = "\section{" +:+ s.
Proof.
  destruct entries as [|[t1 c1] entries].
  - eexists. unfold section_entry. cbn [concat_all fmap list_fmap fst snd].
    change ("" +:+ ?x) with x. by rewrite !str_app_assoc.
  - eexists. rewrite fmap_cons. unfold section_entry at 1.
    cbn [concat_all fst snd]. by rewrite !str_app_assoc.
Qed.

Lemma scan_section_entries (entries : list (string * string)) : ∀ pre pos t c e,
  Str.occurs "\section{" pre = false →
  Forall (λ entry, Str.mem "}" entry.1 = false
                   ∧ Str.occurs "\section{" entry.2 = false) entries →
  Str.mem "}" t = false →
  Str.occurs "\section{" (c +:+ e) = false →
  at_end e = true →
  (∀ v w, c = v +:+ w → w ≠ "" → at_end (w +:+ e) = false) →
  (λ g, (group 1 g, group 2 g)) <$>
    scan section_pattern pos
      (pre +:+ concat_all (section_entry <$> entries) +:+ section_entry (t, c) +:+ e) 0
  = entries ++ [(t, c)].
Proof.
  induction entries as [|[t1 c1] entries IH];
    intros pre pos t c e Hpre Hall Ht Hc He Hlast.
  - cbn [concat_all fmap list_fmap]. change ("" +:+ ?x) with x.
    unfold section_entry. cbn [fst snd]. rewrite !str_app_assoc.
    rewrite scan_pass.
    2:{ intros v w -> Hw. apply run_lit_seq_None.
        apply occurs_false_app in Hpre as [_ Hpre].
        by apply (no_straddle "\" "section{"). }
    assert (Hoe : Str.occurs "\section{" e = false)
      by (by apply occurs_false_app in Hc as [_ ?]).
    destruct (run_heading "\section{" (Alt (Lit "\section{") Dollar)
                (pos + String.length pre) t c e) as [others E];
      [done| |intros; by apply ahead_section_end|].
    { intros q v w -> Hw. apply ahead_section_last; [|by eapply Hlast].
      rewrite str_app_assoc in Hc. by apply occurs_false_app in Hc as [_ Hc]. }
    rewrite <- !str_app_assoc in E. rewrite <- !str_app_assoc.
    erewrite scan_hit; [|exact E|done]. cbn [groups eaten rest].
    assert (Hrest : ∀ q, scan section_pattern q e 0 = []).
    { intros q. by destruct (at_end_inv e He) as [-> | ->]. }
    by rewrite Hrest.
  - apply Forall_cons in Hall as [[Ht1 Hc1] Hall]. cbn [fst snd] in Ht1, Hc1.
    rewrite fmap_cons. cbn [concat_all]. rewrite str_app_assoc.
    destruct (section_entries_open entries t c e) as [s Hs].
    assert (Hscan := IH "" (pos + String.length pre
                            + String.length ("\section{" +:+ t1 +:+ "}" +:+ c1))
                        t c e eq_refl Hall Ht Hc He Hlast).
    change ("" +:+ ?x) with x in Hscan.
    unfold section_entry at 1. cbn [fst snd]. rewrite !str_app_assoc.
    rewrite Hs in Hscan |- *.
    rewrite scan_pass.
    2:{ intros v w -> Hw. apply run_lit_seq_None.
        apply occurs_false_app in Hpre as [_ Hpre].
        by apply (no_straddle "\" "section{"). }
    destruct (run_heading "\section{" (Alt (Lit "\section{") Dollar)
                (pos + String.length pre) t1 c1 ("\section{" +:+ s)) as [others E];
      [done| |intros; apply ahead_section_heading|].
    { intros q v w -> Hw. apply occurs_false_app in Hc1 as [_ Hc1].
      by apply ahead_section_inside. }
    rewrite <- !str_app_assoc in E. rewrite <- !str_app_assoc.
    erewrite scan_hit; [|exact E|done]. cbn [groups eaten rest].
    rewrite fmap_cons, !str_app_assoc. by rewrite Hscan.
Qed.

(** X7. A text written section by section is read back section by section:
    for a preamble without [\section{] followed by one or more headings
    [\section{title}], each with its body, with no closing brace in a title
    and no [\section{] in a body, [read_text] returns one entry per heading,
    in order, with that title and that body as content (the last body up to
    the place where [$] holds) and, as subsections, those read from that
    content. *)
Theorem read_text_read_back pre (entries : list (string * string)) t c :
  Str.occurs "\section{" pre = false →
  Forall (λ entry, Str.mem "}" entry.1 = false
                   ∧ Str.occurs "\section{" entry.2 = false) (entries ++ [(t, c)]) →
  sections (read_text (pre +:+ concat_all (section_entry <$> entries ++ [(t, c)])))
  = read_section <$> (entries ++ [(t, before_end c)]).
Proof.
  intros Hpre [Hall [Ht Hc]%Forall_singleton]%Forall_app. cbn [fst snd] in Ht, Hc.
  destruct (before_end_spec c) as (e & E & He & Hlast).
  unfold read_text, findall2, finditer. cbn [sections]. f_equal.
  assert (Htext : concat_all (section_entry <$> entries ++ [(t, c)])
                  = concat_all (section_entry <$> entries)
                    +:+ section_entry (t, before_end c) +:+ e).
  { rewrite fmap_app. clear -E. induction entries as [|x l IH].
    - cbn [fmap list_fmap app concat_all]. change ("" +:+ ?x) with x.
      unfold section_entry. cbn [fst snd].
      by rewrite str_app_nil_r, !str_app_assoc, <- E.
    - rewrite fmap_cons. cbn [app concat_all]. by rewrite IH, str_app_assoc. }
  rewrite Htext. apply scan_section_entries; try done. by rewrite <- E.
Qed.

Lemma read_text_read_back_witness :
  sections (read_text ("intro " +:+
     concat_all (section_entry <$> [("A", "x \subsection{s}y"); ("B", "")] ++ [("C", "z")])))
  = read_section <$> ([("A", "x \subsection{s}y"); ("B", "")] ++ [("C", before_end "z")]).
Proof.
  apply (read_text_read_back "intro " [("A", "x \subsection{s}y"); ("B", "")] "C" "z").
  - reflexivity.
  - apply (bool_decide_unpack _). vm_compute. exact I.
Defined.

(** * check_term_consistency: the table and the list, in full *)

Section term_report.
Implicit Types (st : TermState) (term key : string) (l : list string).

Lemma lower_char_lower_char c : Str.lower_char (Str.lower_char c) = Str.lower_char c.
Proof. by destruct c as [[] [] [] [] [] [] [] []]. Qed.

(** Lower-casing twice is lower-casing once. *)
Lemma lower_lower s : Str.lower (Str.lower s) = Str.lower s.
Proof. induction s as [|a s IH]; simpl; [done|]. by rewrite lower_char_lower_char, IH. Qed.

Lemma see_term_keyed st term : keyed st → keyed (see_term st term).
Proof.
  intros H key v. rewrite see_term_lookup.
  destruct (found_terms st !! key) eqn:E; [intros [= <-]; by eapply H|].
  case_decide; [|done]. by intros [= <-].
Qed.

(** One round of the loop adds the expected entry, and nothing else: the
    test on the values of the table never holds an entry back. *)
Lemma see_term_inconsistencies st term :
  keyed st →
  inconsistencies (see_term st term)
  = inconsistencies st
    ++ option_list (expected_inconsistency (found_terms (see_term st term)) term).
Proof.
  intros Hkeyed. unfold expected_inconsistency. rewrite see_term_lookup.
  unfold see_term. destruct (found_terms st !! Str.lower term) as [canon|] eqn:E.
  - cbn [mbind option_bind]. destruct (decide (canon ≠ term)) as [Hne|Heq].
    + rewrite (bool_decide_eq_true_2 _ Hne). rewrite bool_decide_eq_true_2; [done|].
      intros (key & Hkey)%elem_of_map_img. apply Hne.
      rewrite <- (Hkeyed _ _ Hkey) in Hkey. congruence.
    + rewrite (bool_decide_eq_false_2 _ Heq). cbn. by rewrite app_nil_r.
  - rewrite decide_True by done. cbn [mbind option_bind inconsistencies].
    rewrite decide_False by (intros H; by apply H). cbn. by rewrite app_nil_r.
Qed.

Lemma foldl_see_term_inconsistencies l : ∀ st,
  keyed st →
  inconsistencies (foldl see_term st l)
  = inconsistencies st
    ++ omap (expected_inconsistency (found_terms (foldl see_term st l))) l.
Proof.
  induction l as [|term l IH]; intros st Hkeyed; simpl foldl.
  - by rewrite app_nil_r.
  - rewrite IH by by apply see_term_keyed.
    rewrite see_term_inconsistencies, <- app_assoc by done. f_equal.
    assert (Hsame : expected_inconsistency (found_terms (foldl see_term (see_term st term) l)) term
                    = expected_inconsistency (found_terms (see_term st term)) term).
    { unfold expected_inconsistency. rewrite foldl_see_term_lookup.
      destruct (found_terms (see_term st term) !! Str.lower term) eqn:E; [done|].
      rewrite see_term_lookup in E. rewrite decide_True in E by done.
      by destruct (found_terms st !! Str.lower term). }
    cbn [omap list_omap]. rewrite Hsame.
    by destruct (expected_inconsistency (found_terms (see_term st term)) term).
Qed.

End term_report.

Lemma all_terms_no_brace text :
  Forall (λ term, Str.mem "}" term = false) (all_terms text).
Proof.
  unfold all_terms, term_patterns. rewrite !bind_cons.
  change ([] ≫= _) with (@nil string).
  rewrite !Forall_app. split_and!; [apply findall_braced_no_brace..|done].
Qed.

(** X8. The table returned under [terms] holds an entry for the key of
    every term of the text, and nothing else: every entry maps the lower-case
    form of a term of the text to that term, every key is its own lower-case
    form, and no spelling in the table holds a closing brace. *)
Theorem term_table_entries text update_cache term_cache :
  let table := terms (check_term_consistency text update_cache term_cache).1 in
  Forall (λ entry, entry.2 ∈ all_terms text ∧ Str.lower entry.2 = entry.1
                   ∧ Str.lower entry.1 = entry.1 ∧ Str.mem "}" entry.2 = false)
         (map_to_list table)
  ∧ Forall (λ term, is_Some (table !! Str.lower term)) (all_terms text).
Proof.
  unfold check_term_consistency. cbn [fst terms]. split.
  - apply Forall_forall. intros [key v] Hentry%elem_of_map_to_list. cbn [fst snd].
    destruct (term_loop_consistent text) as [Htable _].
    destruct (Htable _ _ Hentry) as [Hin <-].
    split_and!; [done|done|apply lower_lower|].
    assert (H := all_terms_no_brace text). rewrite Forall_forall in H. by apply H.
  - apply Forall_forall. intros term Hterm.
    rewrite term_loop_flat, foldl_see_term_lookup. unfold start.
    cbn [found_terms]. rewrite lookup_empty.
    destruct (filter (λ term0, Str.lower term0 = Str.lower term) (all_terms text))
      as [|v vs] eqn:E; [|by eexists].
    assert (Hin : term ∈ filter (λ term0, Str.lower term0 = Str.lower term) (all_terms text))
      by by apply list_elem_of_filter.
    rewrite E in Hin. by apply elem_of_nil in Hin.
Qed.

(** X9. The list returned under [inconsistencies] is exactly this: going
    through the terms of the text in the order of the loop, one entry for
    every term that differs from the spelling the table holds for its key,
    with that spelling as original, the term as variant and the suggestion
    built from the original. No such term is left out. *)
Theorem term_report_inconsistencies text update_cache term_cache :
  let report := (check_term_consistency text update_cache term_cache).1 in
  report_inconsistencies report
  = omap (expected_inconsistency (terms report)) (all_terms text).
Proof.
  unfold check_term_consistency. cbn [fst terms report_inconsistencies].
  rewrite term_loop_flat, foldl_see_term_inconsistencies; [done|].
  intros key v H. cbn in H. by rewrite lookup_empty in H.
Qed.

(** * check_formulas: what the lists hold and where the errors come from *)

Lemma findall_dollars_bodies d text :
  Forall (λ formula, formula ≠ "" ∧ Str.mem "$" formula = false)
         (findall (Lit d ⋄ Group (Plus (other_than "$")) ⋄ Lit d) text).
Proof.
  apply Forall_forall. intros formula. unfold findall.
  intros (g & -> & (u & s' & x & xs & -> & E & <-)%scan_elem)%list_elem_of_fmap.
  assert (Hx : x ∈ x :: xs) by by left.
  rewrite <- E in Hx.
  apply run_dollars_inv in Hx as (a & t & s'' & Ha & Ht & _ & ->).
  change (group 1 (groups (Found [(?o, ?f)] ?e ?r))) with f.
  split; [done|]. rewrite mem_all. cbn [Str.all]. by rewrite Ha, Ht.
Qed.

Lemma findall_environment_bodies env text :
  Forall (λ formula, Str.occurs ("\end{" +:+ env +:+ "}") formula = false)
         (findall (environment env) text).
Proof.
  apply Forall_forall. intros formula. unfold findall.
  intros (g & -> & (u & s' & x & xs & -> & E & <-)%scan_elem)%list_elem_of_fmap.
  apply run_environment_inv in E as (body & _ & -> & Hbody). by cbn.
Qed.

(** X10. Whatever the text, the four lists of [check_formulas] come under
    the keys inline, display, equation and align, in this order; no inline
    or display formula is empty or holds a dollar, and no equation or align
    body holds the command that closes its environment. *)
Theorem formula_lists text :
  ∃ inline display equation align,
    formulas (check_formulas text)
    = [("inline", inline); ("display", display);
       ("equation", equation); ("align", align)]
    ∧ Forall (λ formula, formula ≠ "" ∧ Str.mem "$" formula = false) inline
    ∧ Forall (λ formula, formula ≠ "" ∧ Str.mem "$" formula = false) display
    ∧ Forall (λ formula, Str.occurs "\end{equation}" formula = false) equation
    ∧ Forall (λ formula, Str.occurs "\end{align}" formula = false) align.
Proof.
  eexists _, _, _, _. split; [done|].
  split_and!; [apply findall_dollars_bodies..|apply (findall_environment_bodies "equation")
              |apply (findall_environment_bodies "align")].
Qed.

Lemma formula_errors_elem formula_type idx formula message :
  message ∈ formula_errors formula_type idx formula ↔
  (message = mismatched formula_type idx
   ∧ Str.count "(" formula ≠ Str.count ")" formula)
  ∨ (message = unescaped formula_type idx
     ∧ Str.mem "\" formula = false
     ∧ existsb (λ c, Str.mem c formula) ["_"; "^"; "&"; "%"]%char = true).
Proof.
  unfold formula_errors. rewrite elem_of_app.
  destruct (decide (Str.count "(" formula ≠ Str.count ")" formula)) as [Hc|Hc];
    [rewrite (bool_decide_eq_true_2 _ Hc)|rewrite (bool_decide_eq_false_2 _ Hc)];
    destruct (Str.mem "\" formula);
    destruct (existsb (λ c, Str.mem c formula) ["_"; "^"; "&"; "%"]%char);
    cbn [negb andb]; rewrite ?list_elem_of_singleton, ?elem_of_nil;
    intuition congruence.
Qed.

(** X11. Every message of [errors] has its cause: it is the message for
    mismatched parentheses of a listed formula whose two counts differ, or
    the message for unescaped characters of a listed formula that holds no
    backslash and one of the characters underscore, caret, ampersand and
    percent; and every such formula has its message. *)
Theorem formula_errors_have_causes text message :
  message ∈ errors (check_formulas text) ↔
  ∃ i category formulas_of idx formula,
    formulas (check_formulas text) !! i = Some (category, formulas_of)
    ∧ formulas_of !! idx = Some formula
    ∧ ((message = mismatched category idx
        ∧ Str.count "(" formula ≠ Str.count ")" formula)
       ∨ (message = unescaped category idx
          ∧ Str.mem "\" formula = false
          ∧ existsb (λ c, Str.mem c formula) ["_"; "^"; "&"; "%"]%char = true)).
Proof.
  change (errors (check_formulas text))
    with (formulas (check_formulas text) ≫= category_errors).
  rewrite list_elem_of_bind. split.
  - intros ([category fs] & Hm & (i & Hi)%list_elem_of_lookup_1).
    unfold category_errors in Hm. cbn [fst snd] in Hm.
    apply list_elem_of_join in Hm as (errs & Hm & Herrs).
    apply elem_of_lookup_imap in Herrs as (idx & formula & -> & Hidx).
    apply formula_errors_elem in Hm. by exists i, category, fs, idx, formula.
  - intros (i & category & fs & idx & formula & Hi & Hidx & Hm).
    exists (category, fs). split; [|by eapply list_elem_of_lookup_2].
    unfold category_errors. apply list_elem_of_join.
    exists (formula_errors category idx formula).
    split; [by apply formula_errors_elem|].
    by apply (elem_of_lookup_imap_2 (formula_errors category)).
Qed.

(** * analyze_citations: the list of citations and the two differences *)

(** X12. The list returned under [citations] holds every citation key of
    the text once: it has no repetition, the same members as the keys read
    from the text, and [citation_count] is its length, at most the number
    of keys read. *)
Theorem citations_are_the_distinct_keys text :
  let report := analyze_citations text in
  NoDup (citations report)
  ∧ (∀ key, key ∈ citations report ↔ key ∈ citation_keys text)
  ∧ length (citations report) = citation_count report
  ∧ citation_count report ≤ length (citation_keys text).
Proof.
  cbn. split_and!.
  - apply NoDup_elements.
  - intros key. by rewrite elem_of_elements, elem_of_list_to_set.
  - done.
  - apply submseteq_length, NoDup_submseteq; [apply NoDup_elements|].
    intros key. by rewrite elem_of_elements, elem_of_list_to_set.
Qed.

(** X13. No key is reported both as unused and as missing; the list of
    missing references is empty exactly when every citation key is a
    bibliography key, and the list of unused references exactly when every
    bibliography key is a citation key. *)
Theorem differences_are_exclusive text :
  let report := analyze_citations text in
  Forall (λ key, key ∉ missing_references report) (unused_references report)
  ∧ (missing_references report = []
     ↔ Forall (λ cite, cite ∈ bibliography_keys text) (citation_keys text))
  ∧ (unused_references report = []
     ↔ Forall (λ ref, ref ∈ citation_keys text) (bibliography_keys text)).
Proof.
  assert (Hnil : ∀ (l k : list string),
            filter (λ x, x ∉ k) l = [] ↔ Forall (λ x, x ∈ k) l).
  { intros l k. induction l as [|x l IH]; [done|].
    rewrite Forall_cons, <- IH. destruct (decide (x ∈ k)).
    - rewrite filter_cons_False by tauto. tauto.
    - rewrite filter_cons_True by done. split; [done|tauto]. }
  cbn. split_and!; [|apply Hnil..].
  apply Forall_forall. intros key [Hnot _]%list_elem_of_filter.
  by intros [_ Hin]%list_elem_of_filter.
Qed.

(** * Texts without markup, or with markup left open *)

Section degrade.
Implicit Types (s t u text : string) (r : regex).










End degrade.


